(** * tfdeps: Terraform module dependency analyzer

  A shallow embedding of [.harness/tfdeps.py] (class [TFDeps]) and the
  properties of its comment stripper, its two dependency extractors, its
  aggregation step and its report generator.

  Text is [string]: a sequence of characters, each a code point below 256.
  Python [set]s are [gset string], iterated in an order left open; the two
  [defaultdict(set)] accumulators are [gmap string (gset string)]; and
  [sorted] is a merge sort for the code-point order on strings.  Regular
  expressions are functions that match at the start of a text, driven by
  the scanning loop of [re.sub] and [re.findall].  The file system is a
  tree of nodes; reading a file gives its text or raises [IOError], and
  what the run prints and writes is kept beside the attributes of the
  object.  Verbose logging changes nothing else and is left out.

  The modules [Str], [Re], [Fs] and [TFDeps] hold the program, [Spec] the
  vocabulary in which the properties are stated, [Examples] some concrete
  worlds; the facts and the properties follow. *)

From Stdlib Require Import Ascii String.
From stdpp Require Import gmap strings list fin_maps sorting.

#[local] Set Warnings "-clear-no-such-hyp".
Local Open Scope char_scope.

(** ** Python [str] primitives *)

Module Str.

(** [s.startswith(p)] *)
Fixpoint startswith (s p : string) {struct p} : bool :=
  match p, s with
  | EmptyString, _ => true
  | String a p', String b s' => Ascii.eqb a b && startswith s' p'
  | String _ _, EmptyString => false
  end.

(** [s.endswith(p)] *)
Fixpoint endswith (s p : string) : bool :=
  match s with
  | EmptyString => String.eqb p EmptyString
  | String _ s' => String.eqb s p || endswith s' p
  end.

(** [sub in s] *)
Fixpoint contains (sub s : string) : bool :=
  match s with
  | EmptyString => startswith s sub
  | String _ s' => startswith s sub || contains sub s'
  end.

(** [s.split(sep)[0]] for a non-empty [sep]: the text before the first
    occurrence of [sep], the whole of [s] when [sep] does not occur. *)
Fixpoint split_head (s sep : string) : string :=
  match s with
  | EmptyString => EmptyString
  | String c s' =>
      if startswith s sep then EmptyString else String c (split_head s' sep)
  end.

(** [sep.join(l)] *)
Definition join (sep : string) (l : list string) : string :=
  String.concat sep l.

(** [sorted(xs)] on strings: ascending in the code-point order. *)
Definition sorted (l : list string) : list string :=
  merge_sort String.le l.

(** Iterating over a Python [set] visits every element once, in an order
    the language leaves open. *)
Record iteration := Iteration {
  order : gset string → list string;
  order_perm : ∀ s, order s ≡ₚ elements s
}.

(** [sorted(s)] for a set [s]. *)
Definition sorted_set (it : iteration) (s : gset string) : list string :=
  sorted (order it s).

End Str.

(** ** The fragment of [re] the program uses *)

Module Re.

(** [\s] on a [str] pattern, for code points below 256. *)
Definition is_space (c : ascii) : bool :=
  match c with
  | "009" | "010" | "011" | "012" | "013"
  | "028" | "029" | "030" | "031" | " " | "133" | "160" => true
  | _ => false
  end.

Definition newline : ascii := "010".
Definition quote : ascii := "034".
Definition dq : string := String quote EmptyString.

(** A compiled pattern is a function that tries to match at the start of
    the text and, on success, yields the captured group (empty when the
    pattern has none) and the text left after the match. *)
Definition pattern := string → option (string * string).

(** A literal. *)
Fixpoint lit (p s : string) {struct p} : option string :=
  match p, s with
  | EmptyString, _ => Some s
  | String a p', String b s' => if Ascii.eqb a b then lit p' s' else None
  | String _ _, EmptyString => None
  end.

(** [c*] for a character class [c], greedy: the longest run and the rest. *)
Fixpoint star (c : ascii → bool) (s : string) : string * string :=
  match s with
  | EmptyString => (EmptyString, EmptyString)
  | String a s' =>
      if c a then let '(r, t) := star c s' in (String a r, t)
      else (EmptyString, s)
  end.

(** [c+], greedy. *)
Definition plus (c : ascii → bool) (s : string) : option (string * string) :=
  match star c s with
  | (EmptyString, _) => None
  | (r, t) => Some (r, t)
  end.

(** [.*?X] under DOTALL, where [X] is a literal: the text after the first
    occurrence of [X]. *)
Fixpoint lazy_until (x s : string) : option string :=
  match lit x s with
  | Some t => Some t
  | None =>
      match s with
      | EmptyString => None
      | String _ s' => lazy_until x s'
      end
  end.

(** [.*P] under DOTALL: the greedy [.*] gives back one character at a
    time, so the match of [P] starting furthest to the right wins. *)
Fixpoint greedy_then {A} (p : string → option A) (s : string) : option A :=
  match s with
  | EmptyString => p s
  | String _ s' =>
      match greedy_then p s' with
      | Some r => Some r
      | None => p s
      end
  end.

Definition not_quote (c : ascii) : bool := negb (Ascii.eqb c quote).
Definition not_newline (c : ascii) : bool := negb (Ascii.eqb c newline).
Definition not_space_star (c : ascii) : bool :=
  negb (is_space c) && negb (Ascii.eqb c "*").

(** [/\*.*?\*/] with [re.DOTALL] *)
Definition block_comment : pattern := λ s,
  t ← lit "/*" s;
  u ← lazy_until "*/" t;
  Some (EmptyString, u).

(** [M.*?$] with [re.MULTILINE], for the marker [M]: [.] does not match a
    newline and [$] holds at the end of the text and before a newline. *)
Definition line_comment (marker : string) : pattern := λ s,
  t ← lit marker s;
  Some (EmptyString, (star not_newline t).2).

(** [module\s+Q([^Q]+)Q\s*\{], writing Q for the double quote *)
Definition module_block : pattern := λ s,
  t ← lit "module" s;
  '(_, t) ← plus is_space t;
  t ← lit dq t;
  '(name, t) ← plus not_quote t;
  t ← lit dq t;
  t ← lit "{" (star is_space t).2;
  Some (name, t).

(** [data\s+Q[^Q]+Q\s+Q([^Q]+)Q\s*\{] *)
Definition data_block : pattern := λ s,
  t ← lit "data" s;
  '(_, t) ← plus is_space t;
  t ← lit dq t;
  '(_, t) ← plus not_quote t;
  t ← lit dq t;
  '(_, t) ← plus is_space t;
  t ← lit dq t;
  '(name, t) ← plus not_quote t;
  t ← lit dq t;
  t ← lit "{" (star is_space t).2;
  Some (name, t).

(** [alias\s*=\s*Q([^Q]+)Q] *)
Definition alias_assignment : pattern := λ s,
  t ← lit "alias" s;
  t ← lit "=" (star is_space t).2;
  t ← lit dq (star is_space t).2;
  '(name, t) ← plus not_quote t;
  t ← lit dq t;
  Some (name, t).

(** [/\*.*modules_dir:\s*([^\s*]+).*?\*/] with [re.DOTALL] *)
Definition modules_dir_comment : pattern := λ s,
  t ← lit "/*" s;
  greedy_then (λ t,
    t ← lit "modules_dir:" t;
    '(path, t) ← plus not_space_star (star is_space t).2;
    t ← lazy_until "*/" t;
    Some (path, t)) t.

(** The scanning loop shared by [re.sub], [re.findall] and [re.search]:
    try the pattern at the current position; after a match resume where
    it ended, otherwise move one character on.  [skip] counts the
    characters of the current match still to be passed over.  None of
    the patterns above matches the empty text. *)
Fixpoint sub_from (p : pattern) (skip : nat) (s : string) : string :=
  match s with
  | EmptyString => EmptyString
  | String c s' =>
      match skip with
      | S k => sub_from p k s'
      | O =>
          match p s with
          | Some (_, t) => sub_from p (String.length s' - String.length t) s'
          | None => String c (sub_from p 0 s')
          end
      end
  end.

(** [re.sub(p, '', s)] *)
Definition sub (p : pattern) (s : string) : string := sub_from p 0 s.

Fixpoint findall_from (p : pattern) (skip : nat) (s : string) : list string :=
  match s with
  | EmptyString => []
  | String c s' =>
      match skip with
      | S k => findall_from p k s'
      | O =>
          match p s with
          | Some (g, t) =>
              g :: findall_from p (String.length s' - String.length t) s'
          | None => findall_from p 0 s'
          end
      end
  end.

(** [re.findall(p, s)] for a pattern with one group *)
Definition findall (p : pattern) (s : string) : list string :=
  findall_from p 0 s.

(** [re.search(p, s)], reduced to [match.group(1)] *)
Fixpoint search (p : pattern) (s : string) : option string :=
  match p s with
  | Some (g, _) => Some g
  | None =>
      match s with
      | EmptyString => None
      | String _ s' => search p s'
      end
  end.

End Re.

(** ** The file system and the process environment *)

Module Fs.

(** What a path can denote.  [File None] is a regular file whose [open]
    or [read] raises [IOError]; a directory that is not [listable] makes
    [os.listdir] raise [OSError]; [Special] is anything that is neither
    a regular file nor a directory.  The entries of a directory are in
    the order [os.listdir] returns them. *)
#[local] Unset Elimination Schemes.
Inductive node :=
  | File (content : option string)
  | Dir (listable : bool) (entries : list (string * node))
  | Special.
#[local] Set Elimination Schemes.

(** The entry called [name], as the operating system resolves it. *)
Fixpoint entry (name : string) (entries : list (string * node)) : option node :=
  match entries with
  | [] => None
  | (n, x) :: rest => if String.eqb n name then Some x else entry name rest
  end.

(** [os.path.join(dir, name)], seen through what it denotes. *)
Definition join (dir : option node) (name : string) : option node :=
  match dir with
  | Some (Dir _ entries) => entry name entries
  | _ => None
  end.

(** [os.path.isdir] *)
Definition isdir (p : option node) : bool :=
  match p with Some (Dir _ _) => true | _ => false end.

(** [os.path.isfile] *)
Definition isfile (p : option node) : bool :=
  match p with Some (File _) => true | _ => false end.

(** [os.listdir]; [None] stands for [OSError]. *)
Definition listdir (p : option node) : option (list string) :=
  match p with
  | Some (Dir true entries) => Some (entries.*1)
  | _ => None
  end.

(** [open(p, 'r')] followed by [read()]; [None] stands for [IOError]. *)
Definition read (p : option node) : option string :=
  match p with
  | Some (File (Some content)) => Some content
  | _ => None
  end.

(** The environment of one run: the text of the HCL file ([None] when it
    cannot be read), what the path found after [modules_dir:] denotes
    once made absolute and normalised, and whether [dependencies.txt]
    can be written. *)
Record world := World {
  hcl_file : option string;
  at_path : string → option node;
  can_write : bool
}.

End Fs.

(** ** class [TFDeps] *)

Module TFDeps.
Import Str Re Fs.

(** The lines the program prints when not verbose. *)
Inductive message :=
  | ErrorReadingHcl
  | NoModulesDirConfiguration
  | InvalidModulesDirectory (d : option string)
  | ErrorScanningModulesDirectory
  | NoModulesFound
  | SuccessfullyGenerated
  | ErrorWritingOutputFile.

(** The attributes of a [TFDeps] object, together with what the run has
    printed and the text it has stored in [dependencies.txt]. *)
Record state := State {
  modules_dir : option string;
  dependencies : gmap string (gset string);
  provider_aliases : gmap string (gset string);
  all_modules : gset string;
  printed : list message;
  written : option string
}.

(** [__init__] *)
Definition init : state := State None ∅ ∅ ∅ [] None.

Definition print (m : message) (st : state) : state :=
  State (modules_dir st) (dependencies st) (provider_aliases st)
        (all_modules st) (printed st ++ [m]) (written st).

(** Truth value of a [str]. *)
Definition truthy (s : string) : bool :=
  match s with EmptyString => false | _ => true end.

(** The entry of a [defaultdict(set)], empty when the key is absent. *)
Definition get (m : gmap string (gset string)) (k : string) : gset string :=
  default ∅ (m !! k).

(** [d[k].add(x)] on a [defaultdict(set)] *)
Definition add_to (k x : string) (d : gmap string (gset string))
  : gmap string (gset string) :=
  <[k := {[x]} ∪ get d k]> d.

(** [remove_comments] *)
Definition remove_comments (content : string) : string :=
  let content := sub block_comment content in
  let content := sub (line_comment "//") content in
  let content := sub (line_comment "#") content in
  content.

(** [extract_modules_dir]: the path as it stands in the file; making it
    absolute and normalising it is left to [at_path]. The [strip()] of
    the group changes nothing, the group holding no white space. *)
Definition extract_modules_dir (w : world) (st : state) : option string * state :=
  match hcl_file w with
  | None => (None, print ErrorReadingHcl st)
  | Some content =>
      match search modules_dir_comment content with
      | Some path => (Some path, st)
      | None => (None, print NoModulesDirConfiguration st)
      end
  end.

(** The loop of [scan_modules] over the sorted items. *)
Definition scan_step (root : option node) (acc : list string * gset string)
    (item : string) : list string * gset string :=
  if isdir (join root item) && negb (startswith item ".")
  then (acc.1 ++ [item], {[item]} ∪ acc.2)
  else acc.

(** [scan_modules] *)
Definition scan_modules (w : world) (st : state) : list string * state :=
  let invalid := ([], print (InvalidModulesDirectory (modules_dir st)) st) in
  match modules_dir st with
  | None => invalid
  | Some d =>
      if negb (truthy d) || negb (isdir (at_path w d)) then invalid
      else
        match listdir (at_path w d) with
        | None => ([], print ErrorScanningModulesDirectory st)
        | Some items =>
            let r := foldl (scan_step (at_path w d)) ([], all_modules st)
                           (sorted items) in
            (sorted r.1,
             State (modules_dir st) (dependencies st) (provider_aliases st)
                   r.2 (printed st) (written st))
        end
  end.

(** The aliases one file contributes to [extract_provider_aliases]. *)
Definition aliases_of_text (content : string) : list string :=
  findall alias_assignment (remove_comments content).

(** [extract_provider_aliases] *)
Definition extract_provider_aliases (module_path : option node) : gset string :=
  foldl (λ aliases filename,
           let file_path := join module_path filename in
           if negb (isfile file_path) then aliases
           else match read file_path with
                | Some content => aliases ∪ list_to_set (aliases_of_text content)
                | None => aliases
                end)
        ∅ ["provider.tf"; "versions.tf"]%string.

(** The [.tf] files of a module directory; [None] when it cannot be
    listed. *)
Definition tf_files (module_path : option node) : option (list string) :=
  names ← listdir module_path;
  Some (filter (λ f, endswith f ".tf") names).

(** The module blocks one file contributes. *)
Definition explicit_of_text (content : string) : list string :=
  findall module_block (remove_comments content).

(** [extract_explicit_dependencies] *)
Definition extract_explicit_dependencies (module_path : option node) : gset string :=
  match tf_files module_path with
  | None => ∅
  | Some files =>
      foldl (λ deps tf_file,
               match read (join module_path tf_file) with
               | Some content => deps ∪ list_to_set (explicit_of_text content)
               | None => deps
               end)
            ∅ files
  end.

(** The naming-pattern inference applied to the local name of a data
    block: the value of [module_name] before it is tested. *)
Definition infer_module_name (data_name : string) : option string :=
  if contains "_vpc" data_name then
    if contains "inner" data_name then Some "inner_vpc"%string
    else if contains "outer" data_name then Some "outer_vpc"%string
    else
      let prefix := split_head data_name "_vpc" in
      if truthy prefix then Some (prefix +:+ "_vpc") else None
  else if contains "inner" data_name then Some "inner_vpc"%string
  else if contains "outer" data_name then Some "outer_vpc"%string
  else None.

(** The body of the loop over [data_blocks]. *)
Definition implicit_step (deps : gset string) (data_name : string) : gset string :=
  match infer_module_name data_name with
  | Some module_name =>
      if truthy module_name then {[module_name]} ∪ deps else deps
  | None => deps
  end.

(** The data blocks of one file. *)
Definition data_blocks (content : string) : list string :=
  findall data_block (remove_comments content).

(** [extract_implicit_dependencies] *)
Definition extract_implicit_dependencies (module_path : option node) : gset string :=
  match tf_files module_path with
  | None => ∅
  | Some files =>
      foldl (λ deps tf_file,
               match read (join module_path tf_file) with
               | Some content => foldl implicit_step deps (data_blocks content)
               | None => deps
               end)
            ∅ files
  end.

Section with_iteration.
Context (it : iteration).

(** [analyze_module] *)
Definition analyze_module (w : world) (st : state) (module_name : string) : state :=
  let module_path := join (modules_dir st ≫= at_path w) module_name in
  let aliases := extract_provider_aliases module_path in
  let pa := foldl (λ pa alias, add_to alias module_name pa)
                  (provider_aliases st) (order it aliases) in
  let explicit_deps := extract_explicit_dependencies module_path in
  let implicit_deps := extract_implicit_dependencies module_path in
  let all_deps := (explicit_deps ∪ implicit_deps) ∖ {[module_name]} in
  let deps := foldl (λ deps dep, add_to module_name dep deps)
                    (dependencies st) (order it all_deps) in
  State (modules_dir st) deps pa (all_modules st) (printed st) (written st).

(** One line of the MODULES section. *)
Definition module_line (st : state) (module : string) : string :=
  let deps := sorted_set it (default ∅ (dependencies st !! module)) in
  match deps with
  | [] => "- " +:+ module
  | _ => "- " +:+ module +:+ " (depends_on: " +:+ Str.join ", " deps +:+ ")"
  end.

(** [output_lines] as [generate_output] builds it, one [append] at a
    time. *)
Definition output_lines (st : state) : list string :=
  let out := ["/*"%string] in
  let out := out ++ ["MODULES:"%string] in
  let out := foldl (λ out module, out ++ [module_line st module])
                   out (sorted_set it (all_modules st)) in
  let out := foldl (λ out alias,
                      let out := out ++ [""%string] in
                      let out := out ++ ["PROVIDER " +:+ alias +:+ ":"] in
                      foldl (λ out module, out ++ ["- " +:+ module])
                            out (sorted_set it (get (provider_aliases st) alias)))
                   out (sorted_set it (dom (provider_aliases st))) in
  out ++ ["*/"%string].

(** [generate_output] *)
Definition generate_output (w : world) (st : state) : state :=
  let text := Str.join (String newline EmptyString) (output_lines st) in
  if can_write w
  then State (modules_dir st) (dependencies st) (provider_aliases st)
             (all_modules st) (printed st ++ [SuccessfullyGenerated]) (Some text)
  else print ErrorWritingOutputFile st.

(** The first statement of [run]: [self.modules_dir] receives the result
    of [extract_modules_dir]. *)
Definition resolve (w : world) (st : state) : state :=
  let '(d, st) := extract_modules_dir w st in
  State d (dependencies st) (provider_aliases st)
        (all_modules st) (printed st) (written st).

(** [run]: the exit status and the final state. *)
Definition run (w : world) (st : state) : Z * state :=
  let st := resolve w st in
  match modules_dir st with
  | None => (1%Z, st)
  | Some d =>
      if negb (truthy d) then (1%Z, st)
      else
        let '(modules, st) := scan_modules w st in
        match modules with
        | [] => (1%Z, print NoModulesFound st)
        | _ =>
            let st := foldl (analyze_module w) st modules in
            (0%Z, generate_output w st)
        end
  end.

End with_iteration.



End TFDeps.

(** ** Vocabulary of the specification *)

Module Spec.
Import Str Re Fs TFDeps.

(** [sub] occurs in [s]. *)
Definition occurs (sub s : string) : Prop :=
  ∃ a b, s = a +:+ sub +:+ b.

(** [p] is the text of [s] before the first occurrence of [sep]. *)
Definition before_first (sep p s : string) : Prop :=
  (∃ r, s = p +:+ sep +:+ r) ∧
  ∀ a b, s = a +:+ sep +:+ b → String.length p ≤ String.length a.

(** The naming-pattern rules of the specification, first match wins. *)
Inductive infers (name : string) : option string → Prop :=
  | vpc_inner :
      occurs "_vpc" name → occurs "inner" name →
      infers name (Some "inner_vpc"%string)
  | vpc_outer :
      occurs "_vpc" name → ¬ occurs "inner" name → occurs "outer" name →
      infers name (Some "outer_vpc"%string)
  | vpc_prefix prefix :
      ¬ occurs "inner" name → ¬ occurs "outer" name →
      before_first "_vpc" prefix name → prefix ≠ EmptyString →
      infers name (Some (prefix +:+ "_vpc"))
  | vpc_empty_prefix :
      ¬ occurs "inner" name → ¬ occurs "outer" name →
      before_first "_vpc" EmptyString name →
      infers name None
  | inner_only :
      ¬ occurs "_vpc" name → occurs "inner" name →
      infers name (Some "inner_vpc"%string)
  | outer_only :
      ¬ occurs "_vpc" name → ¬ occurs "inner" name → occurs "outer" name →
      infers name (Some "outer_vpc"%string)
  | no_inference :
      ¬ occurs "_vpc" name → ¬ occurs "inner" name → ¬ occurs "outer" name →
      infers name None.

(** The lines of a text, as [s.split] on the newline gives them, and the
    text they make up. *)
Fixpoint lines (s : string) : list string :=
  match s with
  | EmptyString => [EmptyString]
  | String c s' =>
      if Ascii.eqb c newline then EmptyString :: lines s'
      else match lines s' with
           | l :: ls => String c l :: ls
           | [] => [String c EmptyString]
           end
  end.

Definition unlines (ls : list string) : string :=
  Str.join (String newline EmptyString) ls.

(** A text without a newline. *)
Fixpoint one_line (s : string) : bool :=
  match s with
  | EmptyString => true
  | String c s' => negb (Ascii.eqb c newline) && one_line s'
  end.

(** A line up to its first line-comment marker, [//] or [#]. *)
Fixpoint cut_line (l : string) : string :=
  match l with
  | EmptyString => EmptyString
  | String c l' =>
      if startswith l "//" || startswith l "#" then EmptyString
      else String c (cut_line l')
  end.

(** Every line cut at its first line-comment marker. *)
Definition strip_line_comments (s : string) : string :=
  unlines (map cut_line (lines s)).


(** An entry of the root that counts as a module: a directory whose name
    does not start with a dot. *)
Definition is_module (root : option node) (name : string) : bool :=
  isdir (Fs.join root name) && negb (startswith name ".").

(** A run from a fresh object, stage by stage: the outcome of
    [scan_modules], then the state after the loop over the modules. *)
Definition scanned (w : world) : list string * state :=
  scan_modules w (resolve w init).

Definition analysed (it : iteration) (w : world) : state :=
  foldl (analyze_module it w) (scanned w).2 (scanned w).1.

(** Two file systems the program cannot tell apart, listings being taken
    up to their order: the same files with the same text, directories
    with the same names in them, level by level down to the files of a
    module. *)
Definition same_file (a b : option node) : Prop :=
  isfile a = isfile b ∧ read a = read b.

Definition same_listing (a b : option node) : Prop :=
  isdir a = isdir b ∧ option_Forall2 (≡ₚ) (listdir a) (listdir b).

Definition same_module (a b : option node) : Prop :=
  same_listing a b ∧ ∀ f, same_file (Fs.join a f) (Fs.join b f).

Definition same_root (a b : option node) : Prop :=
  same_listing a b ∧ ∀ name, same_module (Fs.join a name) (Fs.join b name).

Definition same_world (w w' : world) : Prop :=
  hcl_file w = hcl_file w' ∧ can_write w = can_write w' ∧
  ∀ p, same_root (at_path w p) (at_path w' p).

(** The directory of a module, as [analyze_module] joins it. *)
Definition path_of (w : world) (st : state) (module_name : string) : option node :=
  Fs.join (modules_dir st ≫= at_path w) module_name.

(** The dependencies a module's directory yields, its own name removed. *)
Definition found_deps (module_path : option node) (module_name : string) : gset string :=
  (extract_explicit_dependencies module_path ∪
   extract_implicit_dependencies module_path) ∖ {[module_name]}.

(** No module depends on itself. *)
Definition no_self_dependency (st : state) : Prop :=
  ∀ m, m ∉ get (dependencies st) m.

(** Aliases are declared by scanned modules only. *)
Definition declared_by_scanned (st : state) : Prop :=
  ∀ alias m, m ∈ get (provider_aliases st) alias → m ∈ all_modules st.

(** The three ways a run fails. *)
Definition resolves_to (w : world) (d : string) : Prop :=
  ∃ content, hcl_file w = Some content ∧
             search modules_dir_comment content = Some d.


Definition invalid_root (w : world) : Prop :=
  ∃ d, resolves_to w d ∧ isdir (at_path w d) = false.


(** The report as the specification lays it out. *)
Definition report_module_line (it : iteration) (st : state) (module : string) : string :=
  if decide (get (dependencies st) module = ∅)
  then "- " +:+ module
  else "- " +:+ module +:+ " (depends_on: " +:+
       Str.join ", " (sorted_set it (get (dependencies st) module)) +:+ ")".

Definition provider_section (it : iteration) (st : state) (alias : string) : list string :=
  [""%string; "PROVIDER " +:+ alias +:+ ":"] ++
  map (λ module, "- " +:+ module) (sorted_set it (get (provider_aliases st) alias)).

Definition report (it : iteration) (st : state) : list string :=
  ["/*"%string; "MODULES:"%string] ++
  map (report_module_line it st) (sorted_set it (all_modules st)) ++
  concat (map (provider_section it st) (sorted_set it (dom (provider_aliases st)))) ++
  ["*/"%string].

(** Every character of a text is in a class. *)
Fixpoint all_chars (c : ascii → bool) (s : string) : bool :=
  match s with
  | EmptyString => true
  | String a s' => c a && all_chars c s'
  end.

(** The modules of a list whose directory declares an alias. *)
Definition declarers (w : world) (st : state) (modules : list string)
    (alias : string) : gset string :=
  list_to_set
    (filter (λ m, alias ∈ extract_provider_aliases (path_of w st m)) modules).

(** The header of a module block, of a data block and of an alias
    assignment, as the three patterns read them. *)
Definition module_header (ws name ws' : string) : string :=
  "module" +:+ ws +:+ dq +:+ name +:+ dq +:+ ws' +:+ "{".

Definition data_header (ws type ws' name ws'' : string) : string :=
  "data" +:+ ws +:+ dq +:+ type +:+ dq +:+ ws' +:+ dq +:+ name +:+ dq +:+ ws'' +:+ "{".

Definition alias_header (ws ws' name : string) : string :=
  "alias" +:+ ws +:+ "=" +:+ ws' +:+ dq +:+ name +:+ dq.

End Spec.

(** ** Worlds used as examples *)

Module Examples.
Import Str Re Fs TFDeps.

(** Sets iterated in the order of [elements]. *)
Definition in_elements_order : iteration :=
  Iteration elements (λ s, Permutation_refl (elements s)).

(** Sets iterated in the opposite order. *)
Definition in_reverse_order : iteration :=
  Iteration (λ s, reverse (elements s)) (λ s, reverse_Permutation (elements s)).

(** [s] between double quotes. *)
Definition quoted (s : string) : string := dq +:+ s +:+ dq.

Definition nl : string := String newline EmptyString.

(** A world whose HCL file names the directory [modules], found to be
    [root]. *)
Definition world_of (root : node) (writable : bool) : world :=
  World (Some "/* modules_dir: modules */"%string)
        (λ p, if String.eqb p "modules" then Some root else None)
        writable.

(** The scenario of the specification: module [a] declares a module block
    named [b] and a data block named [inner_db]; module [b] is empty. *)
Definition a_main_tf : string :=
  "module " +:+ quoted "b" +:+ " {}" +:+ nl +:+
  "data " +:+ quoted "aws_db_instance" +:+ " " +:+ quoted "inner_db" +:+ " {}" +:+ nl.

Definition scenario_root : node :=
  Dir true [("a"%string, Dir true [("main.tf"%string, File (Some a_main_tf))]);
            ("b"%string, Dir true [])].

(** The same directory listed the other way round. *)
Definition scenario_root_reordered : node :=
  Dir true [("b"%string, Dir true []);
            ("a"%string, Dir true [("main.tf"%string, File (Some a_main_tf))])].

(** Two modules declaring the alias [east], one in [provider.tf] and one
    in [versions.tf], beside a plain file and a hidden directory. *)
Definition east_alias : string := "alias = " +:+ quoted "east" +:+ nl.

Definition alias_root : node :=
  Dir true [("web"%string, Dir true [("versions.tf"%string, File (Some east_alias))]);
            ("README.md"%string, File (Some "modules"%string));
            (".git"%string, Dir true []);
            ("db"%string, Dir true [("provider.tf"%string, File (Some east_alias))])].

(** A module named [inner_vpc] whose own file has a module block and a
    data block that both lead to [inner_vpc]. *)
Definition self_reference_tf : string :=
  "module " +:+ quoted "inner_vpc" +:+ " {}" +:+ nl +:+
  "data " +:+ quoted "aws_vpc" +:+ " " +:+ quoted "inner_lookup" +:+ " {}" +:+ nl.

Definition self_reference_root : node :=
  Dir true [("inner_vpc"%string,
             Dir true [("main.tf"%string, File (Some self_reference_tf))])].

End Examples.

(** ** Facts about the [str] primitives *)

Section str_facts.
Import Str Re Spec.

Lemma append_nil_l (t : string) : EmptyString +:+ t = t.
Proof. reflexivity. Qed.

Lemma append_cons (c : ascii) (s t : string) : String c s +:+ t = String c (s +:+ t).
Proof. reflexivity. Qed.

Lemma append_nil_r (s : string) : s +:+ EmptyString = s.
Proof. induction s as [|c s IH]; [done|]. by rewrite append_cons, IH. Qed.

Lemma append_assoc (a b c : string) : (a +:+ b) +:+ c = a +:+ b +:+ c.
Proof. induction a as [|x a IH]; [done|]. by rewrite !append_cons, IH. Qed.

Lemma length_append (a b : string) :
  String.length (a +:+ b) = String.length a + String.length b.
Proof. induction a as [|x a IH]; [done|]. rewrite append_cons. simpl. by rewrite IH. Qed.

Lemma append_eq_nil (a b : string) : a +:+ b = EmptyString → a = EmptyString ∧ b = EmptyString.
Proof. destruct a; [done|]. by rewrite append_cons. Qed.

(** Two prefixes of one text of the same length are equal. *)
Lemma append_inv_length (a a' b b' : string) :
  a +:+ b = a' +:+ b' → String.length a = String.length a' → a = a' ∧ b = b'.
Proof.
  revert a'. induction a as [|x a IH]; intros [|x' a'] E L; try done.
  rewrite !append_cons in E. injection E as -> E. simpl in L.
  destruct (IH a' E) as [-> ->]; [lia|done].
Qed.

Lemma lit_iff (p s t : string) : lit p s = Some t ↔ s = p +:+ t.
Proof.
  revert s. induction p as [|a p IH]; intros s; simpl.
  - rewrite append_nil_l. split; congruence.
  - destruct s as [|b s]; [by rewrite append_cons|].
    rewrite append_cons. destruct (Ascii.eqb_spec a b) as [->|Hne].
    + rewrite IH. split; congruence.
    + split; [done|]. intros [= ? ?]. by destruct Hne.
Qed.

Lemma startswith_iff (s p : string) :
  startswith s p = true ↔ ∃ t, s = p +:+ t.
Proof.
  revert s. induction p as [|a p IH]; intros s; simpl.
  - split; [|done]. intros _. by exists s.
  - destruct s as [|b s].
    + split; [done|]. intros [t E]. by rewrite append_cons in E.
    + rewrite andb_true_iff, IH, Ascii.eqb_eq. split.
      * intros [-> [t ->]]. by exists t.
      * intros [t E]. rewrite append_cons in E. injection E as -> ->. eauto.
Qed.

Lemma startswith_lit (s p : string) :
  startswith s p = true ↔ is_Some (lit p s).
Proof.
  rewrite startswith_iff. split.
  - intros [t ->]. exists t. by apply lit_iff.
  - intros [t E%lit_iff]. eauto.
Qed.

Lemma contains_iff (sub s : string) : contains sub s = true ↔ occurs sub s.
Proof.
  induction s as [|c s IH]; simpl.
  - rewrite startswith_iff. split.
    + intros [t E]. exists EmptyString, t. by rewrite append_nil_l.
    + intros (a & b & E). symmetry in E.
      apply append_eq_nil in E as [-> E].
      apply append_eq_nil in E as [-> ->]. by exists EmptyString.
  - rewrite orb_true_iff, startswith_iff, IH. split.
    + intros [[t E]|(a & b & E)].
      * exists EmptyString, t. by rewrite append_nil_l.
      * exists (String c a), b. by rewrite append_cons, E.
    + intros ([|x a] & b & E).
      * left. exists b. by rewrite append_nil_l in E.
      * right. rewrite append_cons in E. injection E as -> ->. by exists a, b.
Qed.

Lemma contains_false (sub s : string) : contains sub s = false ↔ ¬ occurs sub s.
Proof. rewrite <-contains_iff. by destruct (contains sub s). Qed.

Global Instance occurs_dec sub s : Decision (occurs sub s).
Proof.
  destruct (contains sub s) eqn:E.
  - left. by apply contains_iff.
  - right. by apply contains_false.
Defined.

Lemma split_head_absent (s sep : string) :
  ¬ occurs sep s → split_head s sep = s.
Proof.
  induction s as [|c s IH]; intros H; simpl; [done|].
  destruct (startswith (String c s) sep) eqn:E.
  - destruct H. apply startswith_iff in E as [t E].
    exists EmptyString, t. by rewrite append_nil_l.
  - f_equal. apply IH. intros (a & b & ->). apply H.
    exists (String c a), b. by rewrite append_cons.
Qed.

Lemma split_head_before_first (s sep : string) :
  sep ≠ EmptyString → occurs sep s → before_first sep (split_head s sep) s.
Proof.
  intros Hsep. induction s as [|c s IH]; intros Hocc.
  - destruct Hocc as (a & b & E). symmetry in E.
    apply append_eq_nil in E as [_ E]. by apply append_eq_nil in E as [? _].
  - simpl. destruct (startswith (String c s) sep) eqn:E.
    + split; [|simpl; lia]. apply startswith_iff in E as [t E].
      exists t. by rewrite append_nil_l.
    + assert (occurs sep s) as Hs.
      { destruct Hocc as ([|x a] & b & Eq).
        - rewrite append_nil_l in Eq. exfalso.
          assert (startswith (String c s) sep = true); [|congruence].
          apply startswith_iff. eauto.
        - rewrite append_cons in Eq. injection Eq as -> ->. by exists a, b. }
      destruct (IH Hs) as [[r Hr] Hmin]. split.
      * exists r. by rewrite append_cons, <-Hr.
      * intros [|x a] b Eq.
        -- rewrite append_nil_l in Eq. exfalso.
           assert (startswith (String c s) sep = true); [|congruence].
           apply startswith_iff. eauto.
        -- rewrite append_cons in Eq. injection Eq as -> Eq.
           simpl. specialize (Hmin _ _ Eq). lia.
Qed.

Lemma before_first_unique (sep p q s : string) :
  before_first sep p s → before_first sep q s → p = q.
Proof.
  intros [[r Hr] Hp] [[r' Hr'] Hq].
  pose proof (Hp _ _ Hr'). pose proof (Hq _ _ Hr).
  subst s. apply append_inv_length in Hr' as [? _]; [done|lia].
Qed.

Lemma before_first_occurs (sep p s : string) : before_first sep p s → occurs sep s.
Proof. intros [[r ->] _]. by exists p, r. Qed.

End str_facts.

(** ** The naming-pattern inference *)

Section inference.
Import Str Re Fs TFDeps Spec.

Lemma endswith_refl (s : string) : endswith s s = true.
Proof. destruct s; cbn [endswith]; by rewrite String.eqb_refl. Qed.

Lemma endswith_app (p suf : string) : endswith (p +:+ suf) suf = true.
Proof.
  induction p as [|c p IH]; [apply endswith_refl|].
  rewrite append_cons. cbn [endswith]. rewrite IH. apply orb_true_r.
Qed.

Lemma truthy_iff (s : string) : truthy s = true ↔ s ≠ EmptyString.
Proof. by destruct s. Qed.

Lemma truthy_app_r (p s : string) : truthy s = true → truthy (p +:+ s) = true.
Proof. destruct p; [done|]. by rewrite append_cons. Qed.

(** The code's inference obeys the rules. *)
Lemma infers_infer_module_name (name : string) :
  infers name (infer_module_name name).
Proof.
  unfold infer_module_name.
  destruct (contains "_vpc" name) eqn:Hv;
    destruct (contains "inner" name) eqn:Hi;
    destruct (contains "outer" name) eqn:Ho;
    rewrite ?contains_iff, ?contains_false in *;
    try (by constructor).
  all: pose proof (split_head_before_first name "_vpc" ltac:(done) Hv) as Hb.
  all: destruct (truthy (split_head name "_vpc")) eqn:Ht.
  all: try (apply vpc_prefix; [done..|by apply truthy_iff]).
  all: destruct (split_head name "_vpc"); [|done].
  all: by apply vpc_empty_prefix.
Qed.

(** The rules leave no choice. *)
Lemma infers_functional (name : string) (r r' : option string) :
  infers name r → infers name r' → r = r'.
Proof.
  destruct 1; destruct 1; try done;
    repeat match goal with
           | H : before_first _ _ _ |- _ =>
               pose proof (before_first_occurs _ _ _ H); revert H
           end; intros; try done.
  all: match goal with
       | H1 : before_first _ ?p ?n, H2 : before_first _ ?q ?n |- _ =>
           pose proof (before_first_unique _ _ _ _ H1 H2)
       end; by simplify_eq.
Qed.

Lemma infer_module_name_iff (name : string) (r : option string) :
  infers name r ↔ infer_module_name name = r.
Proof.
  split.
  - intros H. by apply (infers_functional name), H; apply infers_infer_module_name.
  - intros <-. apply infers_infer_module_name.
Qed.

(** Whatever is inferred is [inner_vpc], [outer_vpc] or a non-empty
    prefix followed by [_vpc]. *)
Lemma infer_module_name_shape (name m : string) :
  infer_module_name name = Some m →
  m = "inner_vpc"%string ∨ m = "outer_vpc"%string ∨
  ∃ prefix, prefix ≠ EmptyString ∧ m = prefix +:+ "_vpc".
Proof.
  unfold infer_module_name. intros H.
  repeat case_match; simplify_eq; auto.
  right; right. eexists. split; [|done]. by apply truthy_iff.
Qed.

Lemma infer_module_name_truthy (name m : string) :
  infer_module_name name = Some m → truthy m = true.
Proof.
  intros [->|[->|(p & _ & ->)]]%infer_module_name_shape; try done.
  by apply truthy_app_r.
Qed.

Lemma elem_of_foldl_implicit_step (l : list string) (deps : gset string) (x : string) :
  x ∈ foldl implicit_step deps l ↔
  x ∈ deps ∨ ∃ d, d ∈ l ∧ infer_module_name d = Some x.
Proof.
  revert deps. induction l as [|d l IH]; intros deps; simpl.
  - split; [auto|]. intros [?|(d & Hd & _)]; [done|]. by apply elem_of_nil in Hd.
  - rewrite IH. unfold implicit_step.
    destruct (infer_module_name d) as [m|] eqn:E.
    + rewrite (infer_module_name_truthy _ _ E). split.
      * intros [[->%elem_of_singleton|?]%elem_of_union|(d' & ? & ?)].
        -- right. exists d. split; [left|done].
        -- by left.
        -- right. exists d'. split; [by right|done].
      * intros [?|(d' & [->|?]%elem_of_cons & ?)].
        -- left. set_solver.
        -- left. simplify_eq. set_solver.
        -- right. eauto.
    + split.
      * intros [?|(d' & ? & ?)]; [by left|]. right. exists d'. split; [by right|done].
      * intros [?|(d' & [->|?]%elem_of_cons & ?)]; [by left|congruence|eauto].
Qed.

(** A loop over the files of a module in which every readable file adds
    its findings to the set built so far. *)
Lemma elem_of_foldl_files (g : string → option string)
    (F : gset string → string → gset string) (P : string → string → Prop) :
  (∀ deps c x, x ∈ F deps c ↔ x ∈ deps ∨ P c x) →
  ∀ (files : list string) (acc : gset string) (x : string),
    x ∈ foldl (λ deps f, match g f with Some c => F deps c | None => deps end)
              acc files ↔
    x ∈ acc ∨ ∃ f c, f ∈ files ∧ g f = Some c ∧ P c x.
Proof.
  intros HF files. induction files as [|f files IH]; intros acc x; simpl.
  - split; [auto|]. intros [?|(f & c & Hf & _)]; [done|]. by apply elem_of_nil in Hf.
  - rewrite IH. split.
    + intros [H|(f' & c & ? & ? & ?)].
      * destruct (g f) as [c|] eqn:E; [|by left].
        apply HF in H as [?|?]; [by left|].
        right. exists f, c. split; [left|done].
      * right. exists f', c. split; [by right|done].
    + intros [?|(f' & c & [->|?]%elem_of_cons & E & ?)].
      * left. destruct (g f); [|done]. apply HF. by left.
      * left. rewrite E. apply HF. by right.
      * right. eauto.
Qed.

(** What [extract_implicit_dependencies] returns. *)
Lemma elem_of_extract_implicit (module_path : option node) (x : string) :
  x ∈ extract_implicit_dependencies module_path ↔
  ∃ files f content data_name,
    tf_files module_path = Some files ∧ f ∈ files ∧
    read (join module_path f) = Some content ∧
    data_name ∈ data_blocks content ∧ infer_module_name data_name = Some x.
Proof.
  unfold extract_implicit_dependencies.
  destruct (tf_files module_path) as [files|] eqn:E.
  - rewrite (elem_of_foldl_files (λ f, read (join module_path f))
               (λ deps c, foldl implicit_step deps (data_blocks c))
               (λ c x, ∃ d, d ∈ data_blocks c ∧ infer_module_name d = Some x)).
    + split.
      * intros [?|(f & c & ? & ? & d & ? & ?)]; [set_solver|].
        by exists files, f, c, d.
      * intros (? & f & c & d & [= <-] & ? & ? & ? & ?). right. by exists f, c; eauto.
    + intros. apply elem_of_foldl_implicit_step.
  - split; [set_solver|]. by intros (? & ? & ? & ? & ? & _).
Qed.

(** What [extract_explicit_dependencies] returns. *)
Lemma elem_of_extract_explicit (module_path : option node) (x : string) :
  x ∈ extract_explicit_dependencies module_path ↔
  ∃ files f content,
    tf_files module_path = Some files ∧ f ∈ files ∧
    read (join module_path f) = Some content ∧
    x ∈ explicit_of_text content.
Proof.
  unfold extract_explicit_dependencies.
  destruct (tf_files module_path) as [files|] eqn:E.
  - rewrite (elem_of_foldl_files (λ f, read (join module_path f))
               (λ deps c, deps ∪ list_to_set (explicit_of_text c))
               (λ c x, x ∈ explicit_of_text c)).
    + split.
      * intros [?|(f & c & ? & ? & ?)]; [set_solver|]. by exists files, f, c.
      * intros (? & f & c & [= <-] & ? & ? & ?). right. by exists f, c.
    + intros. set_solver.
  - split; [set_solver|]. by intros (? & ? & ? & ? & _).
Qed.

End inference.

(** ** Aggregation *)

Section aggregation.
Import Str Re Fs TFDeps Spec.

Lemma elem_of_order (it : iteration) (s : gset string) (x : string) :
  x ∈ order it s ↔ x ∈ s.
Proof. by rewrite (order_perm it s), elem_of_elements. Qed.

Lemma list_to_set_order (it : iteration) (s : gset string) :
  list_to_set (order it s) = s.
Proof. apply set_eq. intros x. by rewrite elem_of_list_to_set, elem_of_order. Qed.

Lemma order_nil (it : iteration) (s : gset string) : order it s = [] ↔ s = ∅.
Proof.
  split.
  - intros E. by rewrite <-(list_to_set_order it s), E.
  - intros ->. apply Permutation_nil_r. by rewrite (order_perm it ∅), elements_empty.
Qed.

Lemma get_add_to (a k x : string) (d : gmap string (gset string)) :
  add_to a x d !! k = if decide (k = a) then Some ({[x]} ∪ get d a) else d !! k.
Proof.
  unfold add_to. case_decide as H; [subst; apply lookup_insert_eq|].
  by apply lookup_insert_ne.
Qed.

(** [for alias in aliases: self.provider_aliases[alias].add(module_name)] *)
Lemma lookup_foldl_add_alias (l : list string) (m : string)
    (pa : gmap string (gset string)) (k : string) :
  foldl (λ pa alias, add_to alias m pa) pa l !! k =
  if decide (k ∈ l) then Some ({[m]} ∪ get pa k) else pa !! k.
Proof.
  revert pa. induction l as [|a l IH]; intros pa; cbn [foldl].
  - by rewrite decide_False by apply not_elem_of_nil.
  - rewrite IH. unfold get at 1. rewrite get_add_to.
    destruct (decide (k = a)) as [->|Hne].
    + cbn [default].
      rewrite (decide_True (P := a ∈ a :: l)) by left.
      case_decide; f_equal; set_solver.
    + destruct (decide (k ∈ l)).
      * rewrite decide_True by (by right). done.
      * rewrite decide_False; [done|]. by intros [?|?]%elem_of_cons.
Qed.

(** [for dep in all_deps: self.dependencies[module_name].add(dep)] *)
Lemma lookup_foldl_add_dep (l : list string) (m : string)
    (deps : gmap string (gset string)) (k : string) :
  foldl (λ deps dep, add_to m dep deps) deps l !! k =
  if decide (k = m ∧ l ≠ []) then Some (list_to_set l ∪ get deps m)
  else deps !! k.
Proof.
  revert deps. induction l as [|a l IH]; intros deps; cbn [foldl].
  - rewrite decide_False; [done|]. by intros [_ ?].
  - rewrite IH. unfold get at 1. rewrite !get_add_to.
    destruct (decide (k = m)) as [->|Hne].
    + rewrite (decide_True (P := m = m)) by done. cbn [default].
      rewrite (decide_True (P := m = m ∧ a :: l ≠ [])) by done.
      case_decide as Hl.
      * f_equal. set_solver.
      * destruct l; [|by destruct Hl]. f_equal. set_solver.
    + rewrite !decide_False; [done|by intros [? _]..].
Qed.

Lemma dependencies_analyze_module it w st m k :
  dependencies (analyze_module it w st m) !! k =
  if decide (k = m ∧ found_deps (path_of w st m) m ≠ ∅)
  then Some (found_deps (path_of w st m) m ∪ get (dependencies st) m)
  else dependencies st !! k.
Proof.
  unfold analyze_module. simpl. rewrite lookup_foldl_add_dep.
  fold (path_of w st m). fold (found_deps (path_of w st m) m).
  rewrite list_to_set_order.
  destruct (decide (k = m ∧ order it (found_deps (path_of w st m) m) ≠ []))
    as [[-> H]|H].
  - rewrite decide_True; [done|]. split; [done|]. by rewrite <-(order_nil it).
  - rewrite decide_False; [done|]. intros [-> H']. apply H. split; [done|].
    by rewrite order_nil.
Qed.

Lemma provider_aliases_analyze_module it w st m k :
  provider_aliases (analyze_module it w st m) !! k =
  if decide (k ∈ extract_provider_aliases (path_of w st m))
  then Some ({[m]} ∪ get (provider_aliases st) k)
  else provider_aliases st !! k.
Proof.
  unfold analyze_module. simpl. rewrite lookup_foldl_add_alias.
  fold (path_of w st m).
  destruct (decide (k ∈ order it (extract_provider_aliases (path_of w st m))))
    as [H|H]; rewrite elem_of_order in H.
  - by rewrite decide_True.
  - by rewrite decide_False.
Qed.

Lemma state_eq (s t : state) :
  modules_dir s = modules_dir t → dependencies s = dependencies t →
  provider_aliases s = provider_aliases t → all_modules s = all_modules t →
  printed s = printed t → written s = written t → s = t.
Proof. destruct s, t; simpl; congruence. Qed.

(** The order in which sets are iterated does not show in the state
    [analyze_module] leaves. *)
Lemma analyze_module_iteration it it' w st m :
  analyze_module it w st m = analyze_module it' w st m.
Proof.
  apply state_eq; try done; apply map_eq; intros k.
  - by rewrite !dependencies_analyze_module.
  - by rewrite !provider_aliases_analyze_module.
Qed.

Lemma foldl_analyze_module_fields it w modules st :
  modules_dir (foldl (analyze_module it w) st modules) = modules_dir st ∧
  all_modules (foldl (analyze_module it w) st modules) = all_modules st ∧
  printed (foldl (analyze_module it w) st modules) = printed st ∧
  written (foldl (analyze_module it w) st modules) = written st.
Proof.
  revert st. induction modules as [|m modules IH]; intros st; [done|].
  simpl. destruct (IH (analyze_module it w st m)) as (-> & -> & -> & ->). done.
Qed.

Lemma no_self_dependency_analyze_module it w st m :
  no_self_dependency st → no_self_dependency (analyze_module it w st m).
Proof.
  intros H k. unfold get. rewrite dependencies_analyze_module.
  case_decide as Hk; [|apply H].
  destruct Hk as [-> _]. simpl. unfold found_deps.
  pose proof (H m). set_solver.
Qed.

Lemma no_self_dependency_foldl it w modules st :
  no_self_dependency st →
  no_self_dependency (foldl (analyze_module it w) st modules).
Proof.
  revert st. induction modules as [|m modules IH]; intros st H; [done|].
  simpl. by apply IH, no_self_dependency_analyze_module.
Qed.

Lemma declared_by_scanned_analyze_module it w st m :
  m ∈ all_modules st → declared_by_scanned st →
  declared_by_scanned (analyze_module it w st m).
Proof.
  intros Hm H alias k. unfold get. rewrite provider_aliases_analyze_module.
  case_decide; [|apply H]. simpl.
  intros [->%elem_of_singleton|?]%elem_of_union; [done|]. by eapply H.
Qed.

Lemma declared_by_scanned_foldl it w modules st :
  (∀ m, m ∈ modules → m ∈ all_modules st) → declared_by_scanned st →
  declared_by_scanned (foldl (analyze_module it w) st modules).
Proof.
  revert st. induction modules as [|m modules IH]; intros st Hm H; [done|].
  simpl. apply IH.
  - intros k Hk. apply Hm. by right.
  - apply declared_by_scanned_analyze_module; [|done]. apply Hm. by left.
Qed.

End aggregation.

(** ** Sorting *)

Section sorting.
Import Str Re Fs TFDeps Spec.

Lemma sorted_Sorted (l : list string) : Sorted String.le (sorted l).
Proof. apply (Sorted_merge_sort String.le). Qed.

Lemma sorted_perm (l : list string) : sorted l ≡ₚ l.
Proof. apply (merge_sort_Permutation String.le). Qed.

Lemma elem_of_sorted (l : list string) (x : string) : x ∈ sorted l ↔ x ∈ l.
Proof. by rewrite (sorted_perm l). Qed.

(** Sorting forgets the order it was given. *)
Lemma sorted_perm_eq (l l' : list string) : l ≡ₚ l' → sorted l = sorted l'.
Proof.
  intros H. apply (Sorted_unique String.le); [apply sorted_Sorted..|].
  by rewrite !sorted_perm.
Qed.

Lemma sorted_nil (l : list string) : sorted l = [] ↔ l = [].
Proof.
  split; [|by intros ->].
  intros E. apply Permutation_nil_r. by rewrite <-E, sorted_perm.
Qed.

Lemma sorted_set_Sorted it (s : gset string) : Sorted String.le (sorted_set it s).
Proof. apply sorted_Sorted. Qed.

Lemma elem_of_sorted_set it (s : gset string) (x : string) :
  x ∈ sorted_set it s ↔ x ∈ s.
Proof. unfold sorted_set. by rewrite elem_of_sorted, elem_of_order. Qed.

Lemma NoDup_sorted_set it (s : gset string) : NoDup (sorted_set it s).
Proof.
  unfold sorted_set. rewrite sorted_perm, (order_perm it s). apply NoDup_elements.
Qed.

Lemma sorted_set_iteration it it' (s : gset string) :
  sorted_set it s = sorted_set it' s.
Proof. apply sorted_perm_eq. by rewrite !order_perm. Qed.

Lemma sorted_set_nil it (s : gset string) : sorted_set it s = [] ↔ s = ∅.
Proof. unfold sorted_set. by rewrite sorted_nil, order_nil. Qed.

End sorting.

(** ** The report *)

Section report.
Import Str Re Fs TFDeps Spec.
Context (it : iteration).

Lemma foldl_ext {A B} (f g : A → B → A) (l : list B) (a : A) :
  (∀ a b, f a b = g a b) → foldl f a l = foldl g a l.
Proof.
  intros H. revert a. induction l as [|b l IH]; intros a; [done|].
  simpl. by rewrite H, IH.
Qed.

Lemma foldl_snoc_map {A} (f : A → string) (l : list A) (out : list string) :
  foldl (λ out x, out ++ [f x]) out l = out ++ map f l.
Proof.
  revert out. induction l as [|x l IH]; intros out; simpl.
  - by rewrite (right_id_L [] (++)).
  - by rewrite IH, <-(assoc_L (++)).
Qed.

Lemma foldl_sections {A} (h : A → list string) (l : list A) (out : list string) :
  foldl (λ out a, out ++ h a) out l = out ++ concat (map h l).
Proof.
  revert out. induction l as [|x l IH]; intros out; simpl.
  - by rewrite (right_id_L [] (++)).
  - by rewrite IH, <-(assoc_L (++)).
Qed.

Lemma module_line_report (st : state) (m : string) :
  module_line it st m = report_module_line it st m.
Proof.
  unfold module_line, report_module_line. fold (get (dependencies st) m).
  destruct (sorted_set it (get (dependencies st) m)) as [|d ds] eqn:E.
  - apply sorted_set_nil in E. by rewrite decide_True.
  - rewrite decide_False; [done|]. intros H. apply (sorted_set_nil it) in H. congruence.
Qed.

Lemma output_lines_report (st : state) : output_lines it st = report it st.
Proof.
  unfold output_lines, report.
  rewrite foldl_snoc_map.
  rewrite (map_ext _ _ (module_line_report st)).
  rewrite (foldl_ext _ (λ out alias, out ++ provider_section it st alias)).
  - rewrite foldl_sections. simpl. by rewrite <-!(assoc_L (++)).
  - intros out alias. rewrite foldl_snoc_map. unfold provider_section.
    by rewrite <-!(assoc_L (++)).
Qed.

End report.

(** ** Scanning the modules directory *)

Section scanning.
Import Str Re Fs TFDeps Spec.

Lemma foldl_scan_step (root : option node) (items : list string)
    (acc : list string * gset string) :
  foldl (scan_step root) acc items =
  (acc.1 ++ filter (λ item, is_module root item) items,
   list_to_set (filter (λ item, is_module root item) items) ∪ acc.2).
Proof.
  revert acc. induction items as [|a items IH]; intros [ms all]; simpl.
  - rewrite filter_nil, (right_id_L [] (++)). f_equal. set_solver.
  - rewrite IH. unfold scan_step. fold (is_module root a).
    destruct (is_module root a) eqn:E; simpl.
    + rewrite filter_cons_True by (by rewrite E).
      rewrite <-(assoc_L (++)). f_equal. set_solver.
    + rewrite filter_cons_False by (rewrite E; by intros []). done.
Qed.

(** A scan that goes through: the directory is there and can be listed. *)
Lemma scan_modules_listed (w : world) (st : state) (d : string)
    (entries : list (string * node)) :
  modules_dir st = Some d → d ≠ EmptyString →
  at_path w d = Some (Dir true entries) →
  scan_modules w st =
  (sorted (filter (λ item, is_module (at_path w d) item) (entries.*1)),
   State (modules_dir st) (dependencies st) (provider_aliases st)
         (list_to_set (filter (λ item, is_module (at_path w d) item) (entries.*1))
          ∪ all_modules st)
         (printed st) (written st)).
Proof.
  intros Hd Hne Hp. unfold scan_modules. rewrite Hd.
  apply truthy_iff in Hne. rewrite Hne, Hp. simpl.
  rewrite foldl_scan_step. simpl. f_equal.
  - apply sorted_perm_eq. by rewrite sorted_perm.
  - f_equal. apply set_eq. intros x.
    rewrite !elem_of_union, !elem_of_list_to_set, !list_elem_of_filter, elem_of_sorted.
    done.
Qed.


Lemma scan_modules_fields (w : world) (st : state) :
  modules_dir (scan_modules w st).2 = modules_dir st ∧
  dependencies (scan_modules w st).2 = dependencies st ∧
  provider_aliases (scan_modules w st).2 = provider_aliases st ∧
  written (scan_modules w st).2 = written st.
Proof.
  unfold scan_modules.
  destruct (modules_dir st) as [d|] eqn:Hd; simpl; [|done].
  destruct (truthy d); simpl; [|by rewrite Hd].
  destruct (isdir (at_path w d)); simpl; [|by rewrite Hd].
  destruct (listdir (at_path w d)); simpl; by rewrite ?Hd.
Qed.

(** The modules returned are exactly those added to [all_modules]. *)
Lemma all_modules_scan_modules (w : world) (st : state) :
  all_modules (scan_modules w st).2 =
  list_to_set (scan_modules w st).1 ∪ all_modules st.
Proof.
  destruct (modules_dir st) as [d|] eqn:Hd.
  2: { unfold scan_modules. rewrite Hd. simpl. set_solver. }
  destruct (decide (d = EmptyString)) as [->|Hne].
  { unfold scan_modules. rewrite Hd. simpl. set_solver. }
  destruct (at_path w d) as [[c|[] entries|]|] eqn:Hp.
  2: { rewrite (scan_modules_listed w st d entries) by done. simpl.
       f_equal. apply set_eq. intros x.
       by rewrite !elem_of_list_to_set, elem_of_sorted. }
  all: unfold scan_modules; rewrite Hd, Hp;
    destruct (truthy d); simpl; set_solver.
Qed.

End scanning.

(** ** The run as a whole *)

Section whole_run.
Import Str Re Fs TFDeps Spec.

Lemma plus_nonempty (c : ascii → bool) (s r t : string) :
  plus c s = Some (r, t) → r ≠ EmptyString.
Proof.
  unfold plus. destruct (star c s) as [[|a r'] t']; [done|]. by intros [= <- _].
Qed.

Lemma greedy_then_Some {A} (p : string → option A) (s : string) (r : A) :
  greedy_then p s = Some r → ∃ s', p s' = Some r.
Proof.
  induction s as [|c s IH]; simpl; [eauto|].
  destruct (greedy_then p s); [intros [= <-]; eauto|eauto].
Qed.

Lemma search_Some (p : pattern) (s g : string) :
  search p s = Some g → ∃ s' t, p s' = Some (g, t).
Proof.
  induction s as [|c s IH]; simpl.
  - destruct (p EmptyString) as [[g' t]|] eqn:E; [|done]. intros [= <-]. eauto.
  - destruct (p (String c s)) as [[g' t]|] eqn:E; [intros [= <-]; eauto|done].
Qed.

(** The path found after [modules_dir:] is never empty. *)
Lemma search_modules_dir_nonempty (content d : string) :
  search modules_dir_comment content = Some d → d ≠ EmptyString.
Proof.
  intros (s & t & H)%search_Some. unfold modules_dir_comment in H.
  apply bind_Some in H as (u & _ & H).
  apply greedy_then_Some in H as [s' H]. cbv beta in H.
  apply bind_Some in H as (v & _ & H).
  apply bind_Some in H as ([path x] & Hp & H).
  apply bind_Some in H as (y & _ & [= <- _]).
  by eapply plus_nonempty.
Qed.

Lemma modules_dir_resolve (w : world) (st : state) (d : string) :
  modules_dir (resolve w st) = Some d ↔ resolves_to w d.
Proof.
  unfold resolve, extract_modules_dir, resolves_to.
  destruct (hcl_file w) as [content|]; simpl.
  - destruct (search modules_dir_comment content) as [d'|] eqn:E; simpl.
    + split; [intros [= ->]; eauto|]. by intros (? & [= <-] & ?); simplify_eq.
    + split; [done|]. by intros (? & [= <-] & ?); simplify_eq.
  - split; [done|]. by intros (? & ? & _).
Qed.


Lemma resolve_init_fields (w : world) :
  dependencies (resolve w init) = ∅ ∧ provider_aliases (resolve w init) = ∅ ∧
  all_modules (resolve w init) = ∅ ∧ written (resolve w init) = None.
Proof.
  unfold resolve, extract_modules_dir.
  destruct (hcl_file w) as [content|]; simpl; [|done].
  by destruct (search modules_dir_comment content).
Qed.

Lemma resolved_truthy (w : world) (st : state) (d : string) :
  modules_dir (resolve w st) = Some d → truthy d = true.
Proof.
  intros (content & _ & H)%modules_dir_resolve.
  by apply truthy_iff, (search_modules_dir_nonempty content).
Qed.

(** [run] in terms of its stages. *)
Lemma run_stages it (w : world) :
  run it w init =
  match (scanned w).1 with
  | [] =>
      (1%Z, match modules_dir (resolve w init) with
            | None => resolve w init
            | Some _ => print NoModulesFound (scanned w).2
            end)
  | _ => (0%Z, generate_output it w (analysed it w))
  end.
Proof.
  unfold run, analysed, scanned.
  destruct (modules_dir (resolve w init)) as [d|] eqn:Hd.
  - rewrite (resolved_truthy _ _ _ Hd). simpl.
    destruct (scan_modules w (resolve w init)) as [modules st]. simpl.
    by destruct modules.
  - unfold scan_modules. by rewrite Hd.
Qed.

Lemma scanned_fields (w : world) :
  modules_dir (scanned w).2 = modules_dir (resolve w init) ∧
  dependencies (scanned w).2 = ∅ ∧ provider_aliases (scanned w).2 = ∅ ∧
  all_modules (scanned w).2 = list_to_set (scanned w).1 ∧
  written (scanned w).2 = None.
Proof.
  unfold scanned.
  destruct (scan_modules_fields w (resolve w init)) as (-> & -> & -> & ->).
  rewrite all_modules_scan_modules.
  destruct (resolve_init_fields w) as (-> & -> & -> & ->).
  repeat split; try done. set_solver.
Qed.

Lemma analysed_fields it (w : world) :
  modules_dir (analysed it w) = modules_dir (resolve w init) ∧
  all_modules (analysed it w) = list_to_set (scanned w).1 ∧
  written (analysed it w) = None.
Proof.
  unfold analysed.
  destruct (foldl_analyze_module_fields it w (scanned w).1 (scanned w).2)
    as (-> & -> & _ & ->).
  by destruct (scanned_fields w) as (-> & _ & _ & -> & ->).
Qed.

Lemma generate_output_fields it (w : world) (st : state) :
  modules_dir (generate_output it w st) = modules_dir st ∧
  dependencies (generate_output it w st) = dependencies st ∧
  provider_aliases (generate_output it w st) = provider_aliases st ∧
  all_modules (generate_output it w st) = all_modules st.
Proof. unfold generate_output. by destruct (can_write w). Qed.

(** What a run leaves in the two maps and in [all_modules]. *)
Lemma run_maps it (w : world) :
  (dependencies (run it w init).2 = dependencies (analysed it w) ∧
   provider_aliases (run it w init).2 = provider_aliases (analysed it w) ∧
   all_modules (run it w init).2 = all_modules (analysed it w)) ∨
  (dependencies (run it w init).2 = ∅ ∧ provider_aliases (run it w init).2 = ∅).
Proof.
  rewrite run_stages. destruct (scanned w).1 eqn:E.
  - right. simpl. destruct (modules_dir (resolve w init)).
    + simpl. by destruct (scanned_fields w) as (_ & -> & -> & _).
    + by destruct (resolve_init_fields w) as (-> & -> & _).
  - left. simpl. by destruct (generate_output_fields it w (analysed it w))
      as (_ & -> & -> & ->).
Qed.

Lemma no_self_dependency_analysed it (w : world) :
  no_self_dependency (analysed it w).
Proof.
  apply no_self_dependency_foldl. intros m. unfold get.
  destruct (scanned_fields w) as (_ & -> & _). by rewrite lookup_empty.
Qed.

Lemma declared_by_scanned_analysed it (w : world) :
  declared_by_scanned (analysed it w).
Proof.
  apply declared_by_scanned_foldl.
  - intros m Hm. destruct (scanned_fields w) as (_ & _ & _ & -> & _).
    by apply elem_of_list_to_set.
  - intros alias m. unfold get.
    destruct (scanned_fields w) as (_ & _ & -> & _). by rewrite lookup_empty.
Qed.

End whole_run.

(** ** Properties of the aggregated state and of the report *)

Section claims_on_state.
Import Str Re Fs TFDeps Spec Examples.

(** C2. After a run no module is in its own dependency set, whatever its
    files refer to, so the sorted list from which its line of the MODULES
    section is rendered does not hold the module either. *)
Theorem no_module_depends_on_itself it (w : world) (m : string) :
  let st := (run it w init).2 in
  (m ∉ get (dependencies st) m) ∧
  (m ∉ sorted_set it (get (dependencies st) m)) ∧
  (module_line it st m = "- " +:+ m ∨
   module_line it st m =
     "- " +:+ m +:+ " (depends_on: " +:+
     Str.join ", " (sorted_set it (get (dependencies st) m)) +:+ ")").
Proof.
  intros st.
  assert (m ∉ get (dependencies st) m) as H.
  { unfold st. destruct (run_maps it w) as [(-> & _)|(-> & _)].
    - apply no_self_dependency_analysed.
    - unfold get. by rewrite lookup_empty. }
  split; [done|]. split; [by rewrite elem_of_sorted_set|].
  rewrite module_line_report. unfold report_module_line. case_decide; auto.
Qed.

(** A module whose own file names it twice over still has no dependency. *)
Example self_reference_dropped :
  let mp := Some (Dir true [("main.tf"%string, File (Some self_reference_tf))]) in
  elements (extract_explicit_dependencies mp) = ["inner_vpc"%string] ∧
  elements (extract_implicit_dependencies mp) = ["inner_vpc"%string] ∧
  output_lines in_elements_order
    (run in_elements_order (world_of self_reference_root true) init).2 =
  ["/*"; "MODULES:"; "- inner_vpc"; "*/"]%string.
Proof. by vm_compute. Qed.


(** C10. A module recorded as declaring an alias was scanned: it is in
    [all_modules], so the module of a PROVIDER line has a line of its own
    in the MODULES section. *)
Theorem provider_modules_are_scanned it (w : world) (alias m : string) :
  m ∈ get (provider_aliases (run it w init).2) alias →
  m ∈ all_modules (run it w init).2 ∧
  m ∈ (scanned w).1 ∧
  (m ∈ sorted_set it (get (provider_aliases (run it w init).2) alias) →
   m ∈ sorted_set it (all_modules (run it w init).2)).
Proof.
  intros H.
  assert (m ∈ all_modules (run it w init).2 ∧ m ∈ (scanned w).1) as [H1 H2].
  { destruct (run_maps it w) as [(_ & Hp & ->)|(_ & Hp)]; rewrite Hp in H.
    - apply declared_by_scanned_analysed in H. split; [done|].
      destruct (analysed_fields it w) as (_ & E & _). rewrite E in H.
      by apply elem_of_list_to_set in H.
    - unfold get in H. by rewrite lookup_empty in H. }
  split; [done|]. split; [done|]. intros _. by apply elem_of_sorted_set.
Qed.

Lemma provider_modules_are_scanned_witness :
  "db"%string ∈ get (provider_aliases
      (run in_elements_order (world_of alias_root true) init).2) "east" ∧
  "db"%string ∈ all_modules (run in_elements_order (world_of alias_root true) init).2.
Proof.
  assert ("db"%string ∈ get (provider_aliases
      (run in_elements_order (world_of alias_root true) init).2) "east") as H
    by (by vm_compute).
  split; [exact H|].
  exact (proj1 (provider_modules_are_scanned in_elements_order
                  (world_of alias_root true) "east" "db" H)).
Defined.

(** The alias scenario of the specification: both declaring modules are
    listed under the alias, sorted. *)
Example east_alias_report :
  output_lines in_elements_order
    (run in_elements_order (world_of alias_root true) init).2 =
  ["/*"; "MODULES:"; "- db"; "- web"; ""; "PROVIDER east:"; "- db"; "- web"; "*/"]%string.
Proof. by vm_compute. Qed.

(** C3. The lines of the report: the opening line, the MODULES marker, one
    line per module of [all_modules] in sorted order, bare when the module
    has no dependency and with its sorted, comma-joined dependencies
    otherwise, then per alias in sorted order an empty line, the PROVIDER
    marker and one line per declaring module in sorted order, then the
    closing line.  Sorted lists are ascending, without repetition, and
    hold exactly the elements of the set, and after a successful run
    [all_modules] is what the scan returned. *)
Theorem report_structure it (st : state) :
  output_lines it st =
    ["/*"%string; "MODULES:"%string] ++
    map (report_module_line it st) (sorted_set it (all_modules st)) ++
    concat (map (provider_section it st)
                (sorted_set it (dom (provider_aliases st)))) ++
    ["*/"%string] ∧
  (∀ m, report_module_line it st m =
        if decide (get (dependencies st) m = ∅)
        then "- " +:+ m
        else "- " +:+ m +:+ " (depends_on: " +:+
             Str.join ", " (sorted_set it (get (dependencies st) m)) +:+ ")") ∧
  (∀ alias, provider_section it st alias =
        [""%string; "PROVIDER " +:+ alias +:+ ":"] ++
        map (λ m, "- " +:+ m) (sorted_set it (get (provider_aliases st) alias))) ∧
  (∀ s : gset string,
        Sorted String.le (sorted_set it s) ∧ NoDup (sorted_set it s) ∧
        ∀ x, x ∈ sorted_set it s ↔ x ∈ s) ∧
  (∀ w, (run it w init).1 = 0%Z →
        ∀ m, m ∈ sorted_set it (all_modules (run it w init).2) ↔ m ∈ (scanned w).1).
Proof.
  split; [apply output_lines_report|]. split; [done|]. split; [done|]. split.
  - intros s. split; [apply sorted_set_Sorted|]. split; [apply NoDup_sorted_set|].
    intros x. apply elem_of_sorted_set.
  - intros w. rewrite run_stages. destruct (scanned w).1 eqn:E; [done|].
    intros _ m. simpl. rewrite elem_of_sorted_set.
    destruct (generate_output_fields it w (analysed it w)) as (_ & _ & _ & ->).
    destruct (analysed_fields it w) as (_ & -> & _).
    by rewrite E, elem_of_list_to_set.
Qed.

End claims_on_state.

(** ** Exit status and scanning *)

Section claims_on_run.
Import Str Re Fs TFDeps Spec Examples.





(** A run whose report cannot be written still exits with 0. *)
Example unwritable_report_exits_0 :
  let r := run in_elements_order (world_of scenario_root false) init in
  r.1 = 0%Z ∧ written r.2 = None ∧ printed r.2 = [ErrorWritingOutputFile].
Proof. by vm_compute. Qed.

(** C7. With a root that is a directory and can be listed, [scan_modules]
    returns, in ascending order, the names of the entries that are
    directories and do not start with a dot, and nothing else; with a root
    that is not a directory the run prints the failure, exits with 1 and
    writes no report. *)
Theorem scan_modules_contract it (w : world) :
  (∀ st d entries,
     modules_dir st = Some d → d ≠ EmptyString →
     at_path w d = Some (Dir true entries) →
     Sorted String.le (scan_modules w st).1 ∧
     (scan_modules w st).1 ≡ₚ
       filter (λ name, isdir (entry name entries) = true ∧
                       startswith name "." = false) (entries.*1) ∧
     ∀ name, name ∈ (scan_modules w st).1 ↔
             name ∈ entries.*1 ∧ isdir (entry name entries) = true ∧
             startswith name "." = false) ∧
  (invalid_root w →
     (run it w init).1 = 1%Z ∧ written (run it w init).2 = None ∧
     ∃ d, resolves_to w d ∧
          printed (run it w init).2 =
            [InvalidModulesDirectory (Some d); NoModulesFound]).
Proof.
  split.
  - intros st d entries Hd Hne Hp.
    rewrite (scan_modules_listed _ _ _ entries Hd Hne Hp). simpl.
    assert (∀ name, is_module (Some (Dir true entries)) name ↔
                    isdir (entry name entries) = true ∧ startswith name "." = false)
      as Hm.
    { intros name. unfold is_module. simpl.
      rewrite Is_true_true, andb_true_iff, negb_true_iff. tauto. }
    split; [apply sorted_Sorted|]. split.
    + rewrite sorted_perm, Hp. clear -Hm. induction (entries.*1) as [|a l IH]; [done|].
      destruct (decide (is_module (Some (Dir true entries)) a)) as [H|H].
      * rewrite !filter_cons_True by (done || by apply Hm). by rewrite IH.
      * rewrite !filter_cons_False by (done || by rewrite <-Hm). done.
    + intros name. rewrite elem_of_sorted, list_elem_of_filter, Hp, Hm. tauto.
  - intros (d & Hr & Hi). rewrite run_stages.
    pose proof (proj2 (modules_dir_resolve w init d) Hr) as Hd.
    pose proof (resolved_truthy _ _ _ Hd) as Ht.
    assert (scanned w =
            ([], print (InvalidModulesDirectory (Some d)) (resolve w init))) as ->.
    { unfold scanned, scan_modules. by rewrite Hd, Ht, Hi. }
    simpl. rewrite Hd. simpl.
    destruct (resolve_init_fields w) as (_ & _ & _ & ->).
    split; [done|]. split; [done|]. exists d. split; [done|].
    unfold resolve, extract_modules_dir in *.
    destruct (hcl_file w) as [content|]; [|done].
    by destruct (search modules_dir_comment content).
Qed.

(** Scanning a directory that holds two modules, a plain file and a hidden
    directory. *)
Example scan_alias_root :
  (scanned (world_of alias_root true)).1 = ["db"; "web"]%string.
Proof. by vm_compute. Qed.

End claims_on_run.

(** ** Determinism *)

Section determinism.
Import Str Re Fs TFDeps Spec Examples.

Lemma report_module_line_iteration it it' (st : state) (m : string) :
  report_module_line it st m = report_module_line it' st m.
Proof. unfold report_module_line. by rewrite (sorted_set_iteration it it'). Qed.

Lemma provider_section_iteration it it' (st : state) (alias : string) :
  provider_section it st alias = provider_section it' st alias.
Proof. unfold provider_section. by rewrite (sorted_set_iteration it it'). Qed.

(** The lines depend on the two maps and on [all_modules], not on the
    order in which sets are iterated. *)
Lemma output_lines_iteration it it' (st st' : state) :
  all_modules st = all_modules st' → dependencies st = dependencies st' →
  provider_aliases st = provider_aliases st' →
  output_lines it st = output_lines it' st'.
Proof.
  intros Ha Hd Hp. rewrite !output_lines_report. unfold report.
  rewrite <-Ha, <-Hp, !(sorted_set_iteration it it'). do 2 f_equal.
  - apply map_ext. intros m. rewrite (report_module_line_iteration it it').
    unfold report_module_line. by rewrite Hd.
  - f_equal. f_equal. apply map_ext. intros a.
    rewrite (provider_section_iteration it it'). unfold provider_section.
    by rewrite Hp.
Qed.

Lemma extract_provider_aliases_same (a b : option node) :
  same_module a b → extract_provider_aliases a = extract_provider_aliases b.
Proof.
  intros [_ H]. unfold extract_provider_aliases. simpl.
  destruct (H "provider.tf"%string) as [-> ->].
  by destruct (H "versions.tf"%string) as [-> ->].
Qed.

Lemma tf_files_same (a b : option node) :
  same_module a b →
  option_Forall2 (≡ₚ) (tf_files a) (tf_files b).
Proof.
  intros [[_ H] _]. unfold tf_files.
  destruct H as [l l' Hl|]; simpl; constructor. by rewrite Hl.
Qed.

Lemma extract_explicit_same (a b : option node) :
  same_module a b →
  extract_explicit_dependencies a = extract_explicit_dependencies b.
Proof.
  intros H. apply set_eq. intros x. rewrite !elem_of_extract_explicit.
  pose proof (tf_files_same a b H) as Hf. destruct H as [_ H].
  destruct Hf as [l l' Hl|].
  - split; intros (? & f & c & [= <-] & Hin & Hr & Hx); eexists _, f, c;
      (split; [done|]); destruct (H f) as [_ E].
    + rewrite <-Hl, <-E. done.
    + rewrite Hl, E. done.
  - split; by intros (? & ? & ? & ? & _).
Qed.

Lemma extract_implicit_same (a b : option node) :
  same_module a b →
  extract_implicit_dependencies a = extract_implicit_dependencies b.
Proof.
  intros H. apply set_eq. intros x. rewrite !elem_of_extract_implicit.
  pose proof (tf_files_same a b H) as Hf. destruct H as [_ H].
  destruct Hf as [l l' Hl|].
  - split; intros (? & f & c & dn & [= <-] & Hin & Hr & Hx); eexists _, f, c, dn;
      (split; [done|]); destruct (H f) as [_ E].
    + rewrite <-Hl, <-E. done.
    + rewrite Hl, E. done.
  - split; by intros (? & ? & ? & ? & ? & _).
Qed.

Lemma path_of_same (w w' : world) (st : state) (m : string) :
  same_world w w' → same_module (path_of w st m) (path_of w' st m).
Proof.
  intros (_ & _ & H). unfold path_of.
  destruct (modules_dir st) as [d|]; simpl.
  - apply H.
  - repeat split. constructor.
Qed.

Lemma analyze_module_same it it' (w w' : world) (st : state) (m : string) :
  same_world w w' → analyze_module it w st m = analyze_module it' w' st m.
Proof.
  intros H. pose proof (path_of_same w w' st m H) as Hp.
  apply state_eq; try done; apply map_eq; intros k.
  - rewrite !dependencies_analyze_module. unfold found_deps.
    by rewrite (extract_explicit_same _ _ Hp), (extract_implicit_same _ _ Hp).
  - rewrite !provider_aliases_analyze_module.
    by rewrite (extract_provider_aliases_same _ _ Hp).
Qed.

Lemma scan_modules_same (w w' : world) (st : state) :
  same_world w w' → scan_modules w st = scan_modules w' st.
Proof.
  intros (_ & _ & H). unfold scan_modules.
  destruct (modules_dir st) as [d|]; [|done].
  destruct (H d) as [[Hi Hl] Hm]. rewrite Hi.
  destruct (negb (truthy d) || negb (isdir (at_path w' d))); [done|].
  destruct Hl as [l l' Hl|]; [|done].
  rewrite (sorted_perm_eq l l' Hl).
  rewrite (foldl_ext (scan_step (at_path w d)) (scan_step (at_path w' d))); [done|].
  intros acc item. unfold scan_step. by destruct (Hm item) as [[-> _] _].
Qed.

Lemma resolve_same (w w' : world) (st : state) :
  same_world w w' → resolve w st = resolve w' st.
Proof. intros (H & _). unfold resolve, extract_modules_dir. by rewrite H. Qed.

Lemma run_same it it' (w w' : world) :
  same_world w w' → run it w init = run it' w' init.
Proof.
  intros H. rewrite !run_stages. unfold analysed, scanned.
  rewrite (resolve_same w w' init H), (scan_modules_same w w' _ H).
  destruct (scan_modules w' (resolve w' init)).1; [done|]. f_equal.
  rewrite (foldl_ext (analyze_module it w) (analyze_module it' w'))
    by (intros; by apply analyze_module_same).
  unfold generate_output. destruct H as (_ & -> & _).
  by rewrite (output_lines_iteration it it' _ _ eq_refl eq_refl eq_refl).
Qed.

(** The entry found under a name does not depend on the order of a
    listing whose names are distinct. *)
Lemma entry_Some (name : string) (x : node) (entries : list (string * node)) :
  NoDup (entries.*1) → (name, x) ∈ entries → entry name entries = Some x.
Proof.
  induction entries as [|[n y] entries IH]; intros Hnd Hin.
  - by apply elem_of_nil in Hin.
  - simpl in *. apply NoDup_cons in Hnd as [Hn Hnd].
    apply elem_of_cons in Hin as [[= <- <-]|Hin].
    + by rewrite String.eqb_refl.
    + destruct (String.eqb_spec n name) as [->|_]; [|by apply IH].
      destruct Hn. apply list_elem_of_fmap. by exists (name, x).
Qed.

Lemma entry_None (name : string) (entries : list (string * node)) :
  name ∉ entries.*1 → entry name entries = None.
Proof.
  induction entries as [|[n y] entries IH]; intros Hn; [done|].
  simpl in *. apply not_elem_of_cons in Hn as [Hne Hn].
  destruct (String.eqb_spec n name) as [->|_]; [done|by apply IH].
Qed.

Lemma entry_perm (name : string) (entries entries' : list (string * node)) :
  NoDup (entries.*1) → entries ≡ₚ entries' →
  entry name entries = entry name entries'.
Proof.
  intros Hnd Hp.
  assert (NoDup (entries'.*1)) as Hnd' by (by rewrite <-Hp).
  destruct (entry name entries) as [x|] eqn:E.
  - symmetry. apply entry_Some; [done|]. rewrite <-Hp.
    clear -E. induction entries as [|[n y] entries IH]; [done|].
    simpl in E. destruct (String.eqb_spec n name) as [->|_].
    + injection E as ->. left.
    + right. by apply IH.
  - symmetry. apply entry_None. rewrite <-Hp. intros Hin.
    apply list_elem_of_fmap in Hin as ([n y] & Heq & Hin). simpl in Heq. subst n.
    by rewrite (entry_Some _ _ _ Hnd Hin) in E.
Qed.

Lemma same_file_refl (a : option node) : same_file a a.
Proof. done. Qed.

Lemma same_listing_refl (a : option node) : same_listing a a.
Proof. split; [done|]. by destruct (listdir a); constructor. Qed.

Lemma same_module_refl (a : option node) : same_module a a.
Proof. split; [apply same_listing_refl|]. intros f. apply same_file_refl. Qed.

Lemma same_root_refl (a : option node) : same_root a a.
Proof. split; [apply same_listing_refl|]. intros f. apply same_module_refl. Qed.

Lemma same_world_refl (w : world) : same_world w w.
Proof. repeat split; try done. all: apply same_root_refl. Qed.

Lemma same_listing_perm (l : bool) (entries entries' : list (string * node)) :
  entries ≡ₚ entries' →
  same_listing (Some (Dir l entries)) (Some (Dir l entries')).
Proof. intros Hp. split; [done|]. destruct l; constructor. by rewrite Hp. Qed.

(** Listing a directory in another order changes nothing the program can
    see, file names being distinct. *)
Lemma same_root_perm (l : bool) (entries entries' : list (string * node)) :
  NoDup (entries.*1) → entries ≡ₚ entries' →
  same_root (Some (Dir l entries)) (Some (Dir l entries')).
Proof.
  intros Hnd Hp. split; [by apply same_listing_perm|].
  intros name. simpl. rewrite (entry_perm name _ _ Hnd Hp). apply same_module_refl.
Qed.

Lemma same_module_perm (l : bool) (entries entries' : list (string * node)) :
  NoDup (entries.*1) → entries ≡ₚ entries' →
  same_module (Some (Dir l entries)) (Some (Dir l entries')).
Proof.
  intros Hnd Hp. split; [by apply same_listing_perm|].
  intros name. simpl. rewrite (entry_perm name _ _ Hnd Hp). apply same_file_refl.
Qed.

(** C4. Two runs on worlds that differ at most in the order of their
    directory listings, with sets iterated in any two orders, end with the
    same exit status and the same state, report included; the lines are a
    function of [all_modules] and the two maps; and a listing taken in
    another order is such a world. *)
Theorem run_deterministic it it' (w w' : world) :
  same_world w w' →
  run it w init = run it' w' init ∧
  (∀ st st',
     all_modules st = all_modules st' → dependencies st = dependencies st' →
     provider_aliases st = provider_aliases st' →
     output_lines it st = output_lines it' st') ∧
  (∀ l entries entries',
     NoDup (entries.*1) → entries ≡ₚ entries' →
     same_root (Some (Dir l entries)) (Some (Dir l entries')) ∧
     same_module (Some (Dir l entries)) (Some (Dir l entries'))).
Proof.
  intros H. split; [by apply run_same|]. split.
  - intros st st'. apply output_lines_iteration.
  - intros l entries entries' Hnd Hp. split.
    + by apply same_root_perm.
    + by apply same_module_perm.
Qed.

Lemma scenario_reordered_same :
  same_world (world_of scenario_root true) (world_of scenario_root_reordered true).
Proof.
  split; [done|]. split; [done|]. intros p. simpl.
  destruct (String.eqb p "modules"); [|apply same_root_refl].
  apply same_root_perm.
  - apply (bool_decide_unpack _). by vm_compute.
  - apply perm_swap.
Qed.

Lemma run_deterministic_witness :
  same_world (world_of scenario_root true) (world_of scenario_root_reordered true) ∧
  run in_elements_order (world_of scenario_root true) init =
  run in_reverse_order (world_of scenario_root_reordered true) init.
Proof.
  split; [exact scenario_reordered_same|].
  exact (proj1 (run_deterministic in_elements_order in_reverse_order _ _
                  scenario_reordered_same)).
Defined.

(** C8. A name inferred from a data block goes into the dependency set of
    the module as it is, whether or not a module of that name was
    scanned; in the scenario of the specification module [a] is listed
    with [b] and [inner_vpc], module [b] alone, and [inner_vpc] has no
    line in the MODULES section. *)
Theorem implicit_names_listed_verbatim it :
  (∀ w st m dep,
     dep ∈ extract_implicit_dependencies (path_of w st m) → dep ≠ m →
     dep ∈ get (dependencies (analyze_module it w st m)) m) ∧
  let st := (run it (world_of scenario_root true) init).2 in
  output_lines it st =
    ["/*"; "MODULES:"; "- a (depends_on: b, inner_vpc)"; "- b"; "*/"]%string ∧
  sorted_set it (all_modules st) = ["a"; "b"]%string ∧
  elements (extract_implicit_dependencies
              (path_of (world_of scenario_root true) st "a")) =
    ["inner_vpc"%string].
Proof.
  split.
  - intros w st m dep Hdep Hne. unfold get.
    rewrite dependencies_analyze_module.
    assert (dep ∈ found_deps (path_of w st m) m) as Hin.
    { unfold found_deps. set_solver. }
    rewrite decide_True by set_solver. simpl. set_solver.
  - intros st. unfold st.
    rewrite (run_same it in_elements_order _ _ (same_world_refl _)).
    rewrite (output_lines_iteration it in_elements_order _ _ eq_refl eq_refl eq_refl).
    rewrite (sorted_set_iteration it in_elements_order).
    by vm_compute.
Qed.

End determinism.

(** ** The inference as the extractor applies it *)

Section claims_on_inference.
Import Str Re Fs TFDeps Spec Examples.

(** C1. The inference made from the local name of a data block is the one
    the precedence rules give, and no other; the names the extractor
    returns are those inferred from the data blocks of the readable [.tf]
    files; and the four names of the specification are inferred as it
    says. *)
Theorem inference_precedence :
  (∀ name r, infers name r ↔ infer_module_name name = r) ∧
  (∀ module_path x,
     x ∈ extract_implicit_dependencies module_path ↔
     ∃ files f content data_name,
       tf_files module_path = Some files ∧ f ∈ files ∧
       read (Fs.join module_path f) = Some content ∧
       data_name ∈ data_blocks content ∧ infers data_name (Some x)) ∧
  infer_module_name "app_inner_vpc_lookup" = Some "inner_vpc"%string ∧
  infer_module_name "foo_vpc" = Some "foo_vpc"%string ∧
  infer_module_name "_vpc" = None ∧
  infer_module_name "outer_net" = Some "outer_vpc"%string.
Proof.
  split; [apply infer_module_name_iff|]. split; [|done].
  intros mp x. rewrite elem_of_extract_implicit.
  split; intros (files & f & c & d & ? & ? & ? & ? & H);
    exists files, f, c, d; repeat split; try done; by apply infer_module_name_iff.
Qed.

(** C9. A name returned by the implicit extractor, for a module directory
    or for the data blocks of any one text, is [inner_vpc], [outer_vpc]
    or a non-empty prefix followed by [_vpc]: it ends with [_vpc] and is
    not empty. *)
Theorem implicit_names_end_with_vpc (m : string) :
  (∃ module_path, m ∈ extract_implicit_dependencies module_path) ∨
  (∃ content, m ∈ foldl implicit_step ∅ (data_blocks content)) →
  (m = "inner_vpc"%string ∨ m = "outer_vpc"%string ∨
   ∃ prefix, prefix ≠ EmptyString ∧ m = prefix +:+ "_vpc") ∧
  endswith m "_vpc" = true ∧ m ≠ EmptyString.
Proof.
  intros H.
  assert (∃ name, infer_module_name name = Some m) as [name Hn].
  { destruct H as [[mp H]|[content H]].
    - apply elem_of_extract_implicit in H as (_ & _ & _ & d & _ & _ & _ & _ & H). eauto.
    - apply elem_of_foldl_implicit_step in H as [H|(d & _ & H)]; [set_solver|eauto]. }
  split; [by eapply infer_module_name_shape|]. split.
  - apply infer_module_name_shape in Hn as [->|[->|(p & _ & ->)]]; [done..|].
    apply endswith_app.
  - by apply truthy_iff, (infer_module_name_truthy name).
Qed.

Lemma implicit_names_end_with_vpc_witness :
  "inner_vpc"%string ∈ foldl implicit_step ∅ (data_blocks a_main_tf) ∧
  endswith "inner_vpc" "_vpc" = true.
Proof.
  assert ("inner_vpc"%string ∈ foldl implicit_step ∅ (data_blocks a_main_tf)) as H
    by (by vm_compute).
  split; [exact H|].
  exact (proj1 (proj2 (implicit_names_end_with_vpc "inner_vpc"
                         (or_intror (ex_intro _ a_main_tf H))))).
Defined.

End claims_on_inference.

(** ** Comment stripping *)

Section comments.
Import Str Re Fs TFDeps Spec Examples.

(** *** The scanning loop *)

Lemma sub_from_skip (p : pattern) (a t : string) :
  sub_from p (String.length a) (a +:+ t) = sub p t.
Proof. induction a as [|c a IH]; [by destruct t|]. rewrite append_cons. exact IH. Qed.

(** After a match the scan resumes where the match ended. *)
Lemma sub_match (p : pattern) (c : ascii) (a g t : string) :
  p (String c (a +:+ t)) = Some (g, t) →
  sub p (String c (a +:+ t)) = sub p t.
Proof.
  intros H. unfold sub at 1. cbn [sub_from]. rewrite H.
  replace (String.length (a +:+ t) - String.length t) with (String.length a)
    by (rewrite length_append; lia).
  apply sub_from_skip.
Qed.

(** Without a match the character is kept. *)
Lemma sub_no_match (p : pattern) (c : ascii) (s : string) :
  p (String c s) = None → sub p (String c s) = String c (sub p s).
Proof. intros H. unfold sub. cbn [sub_from]. by rewrite H. Qed.

Lemma sub_nil (p : pattern) : sub p EmptyString = EmptyString.
Proof. done. Qed.

(** *** Block comments *)

Lemma lit_None_iff (p s : string) : lit p s = None ↔ startswith s p = false.
Proof.
  destruct (lit p s) as [t|] eqn:E.
  - assert (startswith s p = true) as -> by (apply startswith_lit; eauto). done.
  - destruct (startswith s p) eqn:E'; [|done].
    apply startswith_lit in E' as [t E']. congruence.
Qed.

Lemma occurs_cons (sub : string) (c : ascii) (s : string) :
  occurs sub s → occurs sub (String c s).
Proof. intros (a & b & ->). by exists (String c a), b. Qed.




Lemma block_comment_None (s : string) :
  startswith s "/*" = false → block_comment s = None.
Proof. intros H%lit_None_iff. unfold block_comment. by rewrite H. Qed.

(** Text without a [/*] is kept, up to a following text that does not
    complete one. *)
Lemma sub_block_code (c rest : string) :
  ¬ occurs "/*" c → startswith rest "*" = false →
  sub block_comment (c +:+ rest) = c +:+ sub block_comment rest.
Proof.
  induction c as [|x c IH]; intros Hc Hr; [done|].
  rewrite !append_cons. rewrite sub_no_match.
  - f_equal. apply IH; [|done]. intros Ho. by apply Hc, occurs_cons.
  - apply block_comment_None.
    destruct (startswith (String x (c +:+ rest)) "/*") eqn:E; [|done]. exfalso.
    apply startswith_iff in E as [t E]. rewrite ?append_cons, ?append_nil_l in E.
    injection E as -> E.
    destruct c as [|y c].
    + rewrite ?append_nil_l in E. subst rest. done.
    + rewrite ?append_cons in E. injection E as -> _. apply Hc.
      by exists EmptyString, c.
Qed.

Lemma sub_block_code_only (c : string) :
  ¬ occurs "/*" c → sub block_comment c = c.
Proof.
  intros H. rewrite <-(append_nil_r c) at 1.
  rewrite sub_block_code by done. by rewrite sub_nil, append_nil_r.
Qed.



(** *** Line comments *)

Lemma lines_not_nil (s : string) : lines s ≠ [].
Proof.
  induction s as [|c s IH]; [done|]. cbn [lines].
  destruct (Ascii.eqb c newline); [done|]. by destruct (lines s).
Qed.

Lemma lines_newline (s : string) :
  lines (String newline s) = EmptyString :: lines s.
Proof. done. Qed.

Lemma lines_char (c : ascii) (s l : string) (ls : list string) :
  c ≠ newline → lines s = l :: ls → lines (String c s) = String c l :: ls.
Proof.
  intros Hc Hl. cbn [lines]. rewrite Hl.
  by destruct (Ascii.eqb_spec c newline).
Qed.

Lemma unlines_cons (l : string) (ls : list string) :
  ls ≠ [] → unlines (l :: ls) = l +:+ String newline (unlines ls).
Proof. by destruct ls. Qed.

Lemma unlines_cons_char (c : ascii) (l : string) (ls : list string) :
  unlines (String c l :: ls) = String c (unlines (l :: ls)).
Proof. by destruct ls. Qed.

Lemma one_line_cons (c : ascii) (s : string) :
  one_line (String c s) = true ↔ c ≠ newline ∧ one_line s = true.
Proof.
  cbn [one_line]. rewrite andb_true_iff, negb_true_iff.
  by destruct (Ascii.eqb_spec c newline); intuition.
Qed.

(** [.*?$] runs to the end of the line. *)
Lemma star_not_newline_lines (t : string) :
  ∃ r u tl, star not_newline t = (r, u) ∧ t = r +:+ u ∧
            lines u = EmptyString :: tl ∧ lines t = r :: tl.
Proof.
  induction t as [|c t (r & u & tl & Hs & Ht & Hu & Hl)].
  - by exists EmptyString, EmptyString, [].
  - cbn [star]. unfold not_newline at 1.
    destruct (Ascii.eqb_spec c newline) as [->|Hc]; simpl.
    + exists EmptyString, (String newline t), (lines t). by rewrite lines_newline.
    + rewrite Hs. exists (String c r), u, tl.
      rewrite append_cons, <-Ht. repeat split; try done. by apply lines_char.
Qed.

Lemma lines_app_prefix (m t l : string) (tl : list string) :
  one_line m = true → lines t = l :: tl → lines (m +:+ t) = (m +:+ l) :: tl.
Proof.
  induction m as [|a m IH]; intros Hm Hl; [done|].
  apply one_line_cons in Hm as [Ha Hm]. rewrite !append_cons.
  apply lines_char; [done|]. by apply IH.
Qed.

(** Whether a text starts with a marker shows on its first line. *)
Lemma first_line_startswith (m s l : string) (tl : list string) :
  one_line m = true → lines s = l :: tl → startswith s m = startswith l m.
Proof.
  revert s l tl. induction m as [|a m IH]; intros s l tl Hm Hl; [done|].
  apply one_line_cons in Hm as [Ha Hm].
  destruct s as [|b s].
  - by injection Hl as <- _.
  - cbn [lines] in Hl. destruct (Ascii.eqb_spec b newline) as [->|Hb].
    + injection Hl as <- _. cbn [startswith].
      by destruct (Ascii.eqb_spec a newline).
    + destruct (lines s) as [|l' tl'] eqn:El; [by destruct (lines_not_nil s)|].
      injection Hl as <- _. cbn [startswith]. by rewrite (IH s l' tl').
Qed.

Lemma split_head_prefix (m x : string) :
  m ≠ EmptyString → split_head (m +:+ x) m = EmptyString.
Proof.
  intros Hm. destruct m as [|a m]; [done|]. rewrite append_cons. cbn [split_head].
  rewrite <-append_cons.
  by rewrite (proj2 (startswith_iff (String a m +:+ x) (String a m)))
    by (by exists x).
Qed.

(** One pass of [re.sub] for a line-comment marker cuts every line at the
    first occurrence of the marker. *)
Lemma sub_line_comment (m : string) :
  m ≠ EmptyString → one_line m = true →
  ∀ t, sub (line_comment m) t = unlines (map (λ l, split_head l m) (lines t)).
Proof.
  intros Hm1 Hm2 t. remember (String.length t) as n eqn:Hn.
  revert t Hn. induction n as [n IH] using lt_wf_ind. intros t ->.
  destruct t as [|c s]; [done|].
  destruct (line_comment m (String c s)) as [[g u']|] eqn:E.
  - unfold line_comment in E. apply bind_Some in E as (t1 & Hlit & E).
    apply lit_iff in Hlit.
    destruct (star_not_newline_lines t1) as (r & u & tl & Hs & Ht1 & Hu & Hl).
    rewrite Hs in E. simpl in E. injection E as <- <-.
    rewrite Hlit, (lines_app_prefix m t1 r tl Hm2 Hl). cbn [map].
    rewrite (split_head_prefix m r Hm1).
    destruct m as [|a m']; [done|]. subst t1.
    rewrite append_cons in Hlit. injection Hlit as -> ->.
    rewrite append_cons, <-append_assoc.
    rewrite (sub_match (line_comment (String a m')) a (m' +:+ r) EmptyString u).
    + rewrite (IH (String.length u)) with (t := u); [by rewrite Hu| |done].
      cbn [String.length]. rewrite ?length_append. lia.
    + unfold line_comment. rewrite append_assoc, <-append_cons.
      rewrite (proj2 (lit_iff (String a m') _ (r +:+ u)) eq_refl). simpl.
      by rewrite Hs.
  - rewrite sub_no_match by done.
    rewrite (IH (String.length s)) with (t := s); [|simpl; lia|done].
    assert (startswith (String c s) m = false) as Hst.
    { apply lit_None_iff. unfold line_comment in E.
      by destruct (lit m (String c s)). }
    destruct (Ascii.eqb_spec c newline) as [->|Hc].
    + rewrite lines_newline. cbn [map]. cbn [split_head].
      rewrite unlines_cons; [done|]. pose proof (lines_not_nil s).
      by destruct (lines s).
    + destruct (lines s) as [|l ls] eqn:El; [by destruct (lines_not_nil s)|].
      rewrite (lines_char c s l ls Hc El). cbn [map]. cbn [split_head].
      rewrite <-(first_line_startswith m (String c s) (String c l) ls Hm2
                   (lines_char c s l ls Hc El)), Hst.
      by rewrite unlines_cons_char.
Qed.

Lemma lines_one_line (l : string) : one_line l = true → lines l = [l].
Proof.
  induction l as [|c l IH]; [done|]. intros [Hc Hl]%one_line_cons.
  by rewrite (lines_char c l l [] Hc (IH Hl)).
Qed.

Lemma lines_unlines (ls : list string) :
  ls ≠ [] → Forall (λ l, one_line l = true) ls → lines (unlines ls) = ls.
Proof.
  induction ls as [|l ls IH]; [done|]. intros _ [Hl Hls]%Forall_cons.
  destruct ls as [|l' ls'].
  - by apply lines_one_line.
  - rewrite unlines_cons by done.
    rewrite (lines_app_prefix l _ EmptyString _ Hl (lines_newline _)).
    rewrite append_nil_r. f_equal. by apply IH.
Qed.

Lemma Forall_one_line_lines (s : string) : Forall (λ l, one_line l = true) (lines s).
Proof.
  induction s as [|c s IH]; [by repeat constructor|].
  cbn [lines]. destruct (Ascii.eqb_spec c newline) as [->|Hc].
  - by constructor.
  - destruct (lines s) as [|l ls].
    + constructor; [by apply one_line_cons|constructor].
    + apply Forall_cons in IH as [Hl Hls]. constructor; [|done].
      by apply one_line_cons.
Qed.

Lemma one_line_split_head (l m : string) :
  one_line l = true → one_line (split_head l m) = true.
Proof.
  induction l as [|c l IH]; [done|]. intros [Hc Hl]%one_line_cons.
  cbn [split_head]. destruct (startswith (String c l) m); [done|].
  apply one_line_cons. auto.
Qed.

(** Cutting at [//] and then at [#] cuts at the first of the two. *)
Lemma split_head_twice (l : string) :
  split_head (split_head l "//") "#" = cut_line l.
Proof.
  induction l as [|c l IH]; [done|]. cbn [split_head cut_line].
  destruct (startswith (String c l) "//") eqn:E; [done|].
  cbn [split_head orb]. rewrite IH.
  replace (startswith (String c (split_head l "//")) "#")
    with (startswith (String c l) "#"); [done|].
  cbn [startswith]. by destruct (Ascii.eqb "#" c).
Qed.

(** The two line passes together. *)
Lemma sub_line_comments (t : string) :
  sub (line_comment "#") (sub (line_comment "//") t) = strip_line_comments t.
Proof.
  rewrite !sub_line_comment by done.
  rewrite lines_unlines.
  - unfold strip_line_comments. rewrite map_map. f_equal.
    apply map_ext. intros l. apply split_head_twice.
  - pose proof (lines_not_nil t). by destruct (lines t).
  - apply Forall_fmap. eapply Forall_impl; [apply Forall_one_line_lines|].
    intros l Hl. by apply one_line_split_head.
Qed.

Lemma remove_comments_passes (content : string) :
  remove_comments content = strip_line_comments (sub block_comment content).
Proof. unfold remove_comments. apply sub_line_comments. Qed.


(** A cut line is the part of the line before its first marker: what is
    left out is empty or starts with a marker, and what is kept holds
    none. *)
Lemma cut_line_first_marker (l : string) :
  (∃ r, l = cut_line l +:+ r ∧
        (r = EmptyString ∨ startswith r "//" = true ∨ startswith r "#" = true)) ∧
  ¬ occurs "//" (cut_line l) ∧ ¬ occurs "#" (cut_line l).
Proof.
  induction l as [|c l ([r [Hr Hm]] & H1 & H2)].
  - split; [by exists EmptyString; auto|].
    split; intros (a & b & E); by destruct a.
  - cbn [cut_line].
    destruct (startswith (String c l) "//") eqn:E1;
      [|destruct (startswith (String c l) "#") eqn:E2]; cbn [orb].
    1,2: split; [exists (String c l); auto|];
         split; intros (a & b & E); by destruct a.
    split; [exists r; split; [by rewrite append_cons, <-Hr|done]|].
    split; intros ([|x a] & b & E).
    + rewrite append_nil_l in E.
      assert (startswith (String c l) "//" = true); [|congruence].
      apply startswith_iff. rewrite Hr.
      rewrite !append_cons, append_nil_l in E. injection E as -> E.
      rewrite E. by exists (b +:+ r).
    + rewrite append_cons in E. injection E as -> E. apply H1. by exists a, b.
    + rewrite append_nil_l, !append_cons, append_nil_l in E. injection E as -> E.
      by cbn in E2.
    + rewrite append_cons in E. injection E as -> E. apply H2. by exists a, b.
Qed.



(** References in comments the stripper does recognise. *)
Example commented_references_dropped :
  explicit_of_text ("/* module " +:+ quoted "x" +:+ " {} */") = [] ∧
  explicit_of_text ("/*" +:+ nl +:+ "module " +:+ quoted "x" +:+ " {}" +:+ nl +:+ "*/"
                    +:+ nl +:+ "module " +:+ quoted "y" +:+ " {}") = ["y"%string] ∧
  explicit_of_text ("# module " +:+ quoted "x" +:+ " {}") = [] ∧
  explicit_of_text ("a = 1 // module " +:+ quoted "x" +:+ " {}" +:+ nl +:+
                    "module " +:+ quoted "y" +:+ " {}") = ["y"%string] ∧
  explicit_of_text ("/* # */ module " +:+ quoted "x" +:+ " {}") = ["x"%string].
Proof. by vm_compute. Qed.

End comments.

(** ** What the patterns match *)

Section patterns.
Import Str Re Fs TFDeps Spec Examples.

Lemma star_split (c : ascii → bool) (s : string) :
  s = (star c s).1 +:+ (star c s).2 ∧ all_chars c (star c s).1 = true.
Proof.
  induction s as [|a s [IH1 IH2]]; [done|]. cbn [star].
  destruct (c a) eqn:E; [|done]. destruct (star c s) as [r t]. simpl in *.
  rewrite append_cons, <-IH1, E. done.
Qed.

Lemma plus_split (c : ascii → bool) (s r t : string) :
  plus c s = Some (r, t) →
  s = r +:+ t ∧ r ≠ EmptyString ∧ all_chars c r = true.
Proof.
  unfold plus. destruct (star_split c s) as [H1 H2].
  destruct (star c s) as [[|a r'] t']; [done|]. intros [= <- <-]. done.
Qed.

(** Every group [re.findall] returns comes from a match somewhere in the
    text. *)
Lemma findall_from_elem (p : pattern) (g : string) (s : string) (k : nat) :
  g ∈ findall_from p k s → ∃ a u t, s = a +:+ u ∧ p u = Some (g, t).
Proof.
  revert k. induction s as [|c s IH]; intros k H; [by apply elem_of_nil in H|].
  cbn [findall_from] in H.
  assert (∀ k, g ∈ findall_from p k s →
               ∃ a u t, String c s = a +:+ u ∧ p u = Some (g, t)) as Hs.
  { intros k' (a & u & t & -> & Hp)%IH. by exists (String c a), u, t. }
  destruct k as [|k]; [|by eapply Hs].
  destruct (p (String c s)) as [[g' t]|] eqn:E; [|by eapply Hs].
  apply elem_of_cons in H as [->|H]; [|by eapply Hs].
  by exists EmptyString, (String c s), t.
Qed.

Lemma findall_elem (p : pattern) (g s : string) :
  g ∈ findall p s → ∃ a u t, s = a +:+ u ∧ p u = Some (g, t).
Proof. apply findall_from_elem. Qed.

Lemma module_block_match (u g t : string) :
  module_block u = Some (g, t) →
  ∃ ws ws', u = module_header ws g ws' +:+ t ∧
            ws ≠ EmptyString ∧ all_chars is_space ws = true ∧
            all_chars is_space ws' = true ∧
            g ≠ EmptyString ∧ all_chars not_quote g = true.
Proof.
  unfold module_block. intros H.
  apply bind_Some in H as (t1 & ->%lit_iff & H1).
  apply bind_Some in H1 as ([ws t2] & (-> & ? & ?)%plus_split & H2).
  apply bind_Some in H2 as (t3 & ->%lit_iff & H3).
  apply bind_Some in H3 as ([name t4] & (-> & ? & ?)%plus_split & H4).
  apply bind_Some in H4 as (t5 & ->%lit_iff & H5).
  apply bind_Some in H5 as (t6 & Ht6%lit_iff & [= <- <-]).
  destruct (star_split is_space t5) as [E ?].
  exists ws, (star is_space t5).1. unfold module_header.
  rewrite !append_assoc, <-Ht6, <-E. done.
Qed.

Lemma data_block_match (u g t : string) :
  data_block u = Some (g, t) →
  ∃ ws type ws' ws'', u = data_header ws type ws' g ws'' +:+ t ∧
            ws ≠ EmptyString ∧ all_chars is_space ws = true ∧
            type ≠ EmptyString ∧ all_chars not_quote type = true ∧
            ws' ≠ EmptyString ∧ all_chars is_space ws' = true ∧
            all_chars is_space ws'' = true ∧
            g ≠ EmptyString ∧ all_chars not_quote g = true.
Proof.
  unfold data_block. intros H.
  apply bind_Some in H as (t1 & ->%lit_iff & H1).
  apply bind_Some in H1 as ([ws t2] & (-> & ? & ?)%plus_split & H2).
  apply bind_Some in H2 as (t3 & ->%lit_iff & H3).
  apply bind_Some in H3 as ([type t4] & (-> & ? & ?)%plus_split & H4).
  apply bind_Some in H4 as (t5 & ->%lit_iff & H5).
  apply bind_Some in H5 as ([ws' t6] & (-> & ? & ?)%plus_split & H6).
  apply bind_Some in H6 as (t7 & ->%lit_iff & H7).
  apply bind_Some in H7 as ([name t8] & (-> & ? & ?)%plus_split & H8).
  apply bind_Some in H8 as (t9 & ->%lit_iff & H9).
  apply bind_Some in H9 as (t10 & Ht%lit_iff & [= <- <-]).
  destruct (star_split is_space t9) as [E ?].
  exists ws, type, ws', (star is_space t9).1. unfold data_header.
  rewrite !append_assoc, <-Ht, <-E. done.
Qed.

Lemma alias_assignment_match (u g t : string) :
  alias_assignment u = Some (g, t) →
  ∃ ws ws', u = alias_header ws ws' g +:+ t ∧
            all_chars is_space ws = true ∧ all_chars is_space ws' = true ∧
            g ≠ EmptyString ∧ all_chars not_quote g = true.
Proof.
  unfold alias_assignment. intros H.
  apply bind_Some in H as (t1 & ->%lit_iff & H1).
  destruct (star_split is_space t1) as [E1 ?].
  destruct (star is_space t1) as [ws r1]. cbn [fst snd] in *. subst t1.
  apply bind_Some in H1 as (t2 & ->%lit_iff & H2).
  destruct (star_split is_space t2) as [E2 ?].
  destruct (star is_space t2) as [ws' r2]. cbn [fst snd] in *. subst t2.
  apply bind_Some in H2 as (t3 & ->%lit_iff & H3).
  apply bind_Some in H3 as ([name t4] & (-> & ? & ?)%plus_split & H4).
  apply bind_Some in H4 as (t5 & ->%lit_iff & [= <- <-]).
  exists ws, ws'. unfold alias_header. by rewrite !append_assoc.
Qed.

(** X1. A name [extract_explicit_dependencies] takes from a text is the
    quoted name of a module block header standing in the text left by
    [remove_comments]: the word module, white space, the name between
    double quotes, optional white space and an opening brace; the name is
    not empty and holds no double quote. *)
Theorem explicit_names_from_headers (content g : string) :
  g ∈ explicit_of_text content →
  g ≠ EmptyString ∧ all_chars not_quote g = true ∧
  ∃ a ws ws' b,
    remove_comments content = a +:+ module_header ws g ws' +:+ b ∧
    ws ≠ EmptyString ∧ all_chars is_space ws = true ∧
    all_chars is_space ws' = true.
Proof.
  intros (a & u & t & E & H)%findall_elem.
  apply module_block_match in H as (ws & ws' & -> & ? & ? & ? & ? & ?).
  split; [done|]. split; [done|]. by exists a, ws, ws', t.
Qed.

Lemma explicit_names_from_headers_witness :
  "b"%string ∈ explicit_of_text a_main_tf ∧ "b"%string ≠ EmptyString.
Proof.
  assert ("b"%string ∈ explicit_of_text a_main_tf) as H
    by (apply (bool_decide_unpack _); by vm_compute).
  split; [exact H|].
  exact (proj1 (explicit_names_from_headers a_main_tf "b" H)).
Defined.

(** X2. A local name [extract_implicit_dependencies] inspects is the
    second quoted name of a data block header standing in the text left by
    [remove_comments]: the word data, white space, a quoted type, white
    space, the quoted name, optional white space and an opening brace;
    neither name is empty or holds a double quote. *)
Theorem data_names_from_headers (content g : string) :
  g ∈ data_blocks content →
  g ≠ EmptyString ∧ all_chars not_quote g = true ∧
  ∃ a ws type ws' ws'' b,
    remove_comments content = a +:+ data_header ws type ws' g ws'' +:+ b ∧
    ws ≠ EmptyString ∧ all_chars is_space ws = true ∧
    type ≠ EmptyString ∧ all_chars not_quote type = true ∧
    ws' ≠ EmptyString ∧ all_chars is_space ws' = true ∧
    all_chars is_space ws'' = true.
Proof.
  intros (a & u & t & E & H)%findall_elem.
  apply data_block_match in H
    as (ws & type & ws' & ws'' & -> & ? & ? & ? & ? & ? & ? & ? & ? & ?).
  split; [done|]. split; [done|]. by exists a, ws, type, ws', ws'', t.
Qed.

Lemma data_names_from_headers_witness :
  "inner_db"%string ∈ data_blocks a_main_tf ∧ "inner_db"%string ≠ EmptyString.
Proof.
  assert ("inner_db"%string ∈ data_blocks a_main_tf) as H
    by (apply (bool_decide_unpack _); by vm_compute).
  split; [exact H|].
  exact (proj1 (data_names_from_headers a_main_tf "inner_db" H)).
Defined.

(** X3. An alias [extract_provider_aliases] takes from a text is the
    quoted value of an assignment standing in the text left by
    [remove_comments]: the word alias, optional white space, an equals
    sign, optional white space and the value between double quotes; the
    value is not empty and holds no double quote. *)
Theorem alias_names_from_assignments (content g : string) :
  g ∈ aliases_of_text content →
  g ≠ EmptyString ∧ all_chars not_quote g = true ∧
  ∃ a ws ws' b,
    remove_comments content = a +:+ alias_header ws ws' g +:+ b ∧
    all_chars is_space ws = true ∧ all_chars is_space ws' = true.
Proof.
  intros (a & u & t & E & H)%findall_elem.
  apply alias_assignment_match in H as (ws & ws' & -> & ? & ? & ? & ?).
  split; [done|]. split; [done|]. by exists a, ws, ws', t.
Qed.

Lemma alias_names_from_assignments_witness :
  "east"%string ∈ aliases_of_text east_alias ∧ "east"%string ≠ EmptyString.
Proof.
  assert ("east"%string ∈ aliases_of_text east_alias) as H
    by (apply (bool_decide_unpack _); by vm_compute).
  split; [exact H|].
  exact (proj1 (alias_names_from_assignments east_alias "east" H)).
Defined.

End patterns.

(** ** Which files the extractors read *)

Section extractors.
Import Str Re Fs TFDeps Spec Examples.





End extractors.

(** ** What the loop over the modules leaves in the two maps *)

Section aggregated.
Import Str Re Fs TFDeps Spec Examples.

Lemma path_of_analyze_module it (w : world) (st : state) (m k : string) :
  path_of w (analyze_module it w st m) k = path_of w st k.
Proof. done. Qed.

Lemma get_lookup (d : gmap string (gset string)) (k : string) (s : gset string) :
  d !! k = Some s → get d k = s.
Proof. unfold get. by intros ->. Qed.

Lemma get_dependencies_analyze_module it (w : world) (st : state) (m k : string) :
  get (dependencies (analyze_module it w st m)) k =
  if decide (k = m) then found_deps (path_of w st m) m ∪ get (dependencies st) m
  else get (dependencies st) k.
Proof.
  unfold get at 1. rewrite dependencies_analyze_module.
  destruct (decide (k = m)) as [->|Hne].
  - case_decide as H; [done|].
    assert (found_deps (path_of w st m) m = ∅) as ->.
    { destruct (decide (found_deps (path_of w st m) m = ∅)); [done|].
      by destruct H. }
    by rewrite (left_id_L ∅ (∪)).
  - rewrite decide_False; [done|]. by intros [? _].
Qed.

(** The dependency map after the loop. *)
Lemma dependencies_foldl_analyze it (w : world) (ms : list string) (st : state)
    (k : string) :
  dependencies (foldl (analyze_module it w) st ms) !! k =
  if decide (k ∈ ms ∧ found_deps (path_of w st k) k ≠ ∅)
  then Some (found_deps (path_of w st k) k ∪ get (dependencies st) k)
  else dependencies st !! k.
Proof.
  revert st. induction ms as [|m ms IH]; intros st; cbn [foldl].
  - rewrite decide_False; [done|]. intros [H _]. by apply elem_of_nil in H.
  - rewrite IH, path_of_analyze_module, get_dependencies_analyze_module.
    rewrite dependencies_analyze_module.
    destruct (decide (k = m)) as [->|Hne].
    + destruct (decide (found_deps (path_of w st m) m = ∅)) as [He|Hn].
      * repeat case_decide; try done; naive_solver.
      * repeat case_decide; f_equal; set_solver.
    + rewrite (decide_False (P := k = m ∧ _)) by (by intros [? _]).
      destruct (decide (k ∈ ms ∧ found_deps (path_of w st k) k ≠ ∅)) as [[? ?]|H].
      * rewrite decide_True; [done|]. split; [by right|done].
      * rewrite decide_False; [done|]. intros [[?|?]%elem_of_cons ?]; [done|].
        by apply H.
Qed.

Lemma get_provider_aliases_analyze_module it (w : world) (st : state)
    (m a : string) :
  get (provider_aliases (analyze_module it w st m)) a =
  if decide (a ∈ extract_provider_aliases (path_of w st m))
  then {[m]} ∪ get (provider_aliases st) a
  else get (provider_aliases st) a.
Proof.
  unfold get at 1. rewrite provider_aliases_analyze_module. by case_decide.
Qed.

Lemma declarers_cons (w : world) (st : state) (m : string) (ms : list string)
    (a : string) :
  declarers w st (m :: ms) a =
  (if decide (a ∈ extract_provider_aliases (path_of w st m)) then {[m]} else ∅)
  ∪ declarers w st ms a.
Proof.
  unfold declarers. case_decide.
  - by rewrite filter_cons_True, list_to_set_cons.
  - rewrite filter_cons_False by done. by rewrite (left_id_L ∅ (∪)).
Qed.

(** The alias registry after the loop. *)
Lemma provider_aliases_foldl_analyze it (w : world) (ms : list string)
    (st : state) (a : string) :
  provider_aliases (foldl (analyze_module it w) st ms) !! a =
  if decide (declarers w st ms a = ∅) then provider_aliases st !! a
  else Some (declarers w st ms a ∪ get (provider_aliases st) a).
Proof.
  revert st. induction ms as [|m ms IH]; intros st; cbn [foldl]; [done|].
  rewrite IH. rewrite declarers_cons.
  assert (declarers w (analyze_module it w st m) ms a = declarers w st ms a) as ->
    by done.
  rewrite get_provider_aliases_analyze_module, provider_aliases_analyze_module.
  destruct (decide (a ∈ extract_provider_aliases (path_of w st m))) as [Ha|Ha].
  - rewrite (decide_False (P := {[m]} ∪ _ = ∅)) by set_solver.
    case_decide as Hd; f_equal; set_solver.
  - rewrite (left_id_L ∅ (∪)). by case_decide.
Qed.

Lemma elem_of_declarers (w : world) (st : state) (ms : list string)
    (a m : string) :
  m ∈ declarers w st ms a ↔
  m ∈ ms ∧ a ∈ extract_provider_aliases (path_of w st m).
Proof.
  unfold declarers. rewrite elem_of_list_to_set, list_elem_of_filter. tauto.
Qed.

(** The two maps a run leaves, success or not. *)
Lemma dependencies_run it (w : world) (k : string) :
  dependencies (run it w init).2 !! k =
  if decide (k ∈ (scanned w).1 ∧
             found_deps (path_of w (resolve w init) k) k ≠ ∅)
  then Some (found_deps (path_of w (resolve w init) k) k)
  else None.
Proof.
  assert (path_of w (scanned w).2 k = path_of w (resolve w init) k) as Hp.
  { unfold path_of. by destruct (scanned_fields w) as (-> & _). }
  rewrite run_stages. destruct (scanned w).1 as [|m ms] eqn:E.
  - rewrite decide_False by (intros [H _]; by apply elem_of_nil in H).
    cbn [snd]. destruct (modules_dir (resolve w init)).
    + cbn. destruct (scanned_fields w) as (_ & -> & _). done.
    + destruct (resolve_init_fields w) as (-> & _). done.
  - cbn [snd].
    destruct (generate_output_fields it w (analysed it w)) as (_ & -> & _).
    unfold analysed. rewrite dependencies_foldl_analyze, Hp, E.
    unfold get. destruct (scanned_fields w) as (_ & -> & _).
    rewrite lookup_empty. cbn [default]. rewrite (right_id_L ∅ (∪)). done.
Qed.

Lemma provider_aliases_run it (w : world) (a : string) :
  provider_aliases (run it w init).2 !! a =
  if decide (declarers w (resolve w init) (scanned w).1 a = ∅) then None
  else Some (declarers w (resolve w init) (scanned w).1 a).
Proof.
  assert (∀ ms, declarers w (scanned w).2 ms a
                = declarers w (resolve w init) ms a) as Hd.
  { intros ms. unfold declarers, path_of.
    by destruct (scanned_fields w) as (-> & _). }
  rewrite run_stages. destruct (scanned w).1 as [|m ms] eqn:E.
  - rewrite decide_True by done.
    cbn [snd]. destruct (modules_dir (resolve w init)).
    + cbn. destruct (scanned_fields w) as (_ & _ & -> & _). done.
    + destruct (resolve_init_fields w) as (_ & -> & _). done.
  - cbn [snd].
    destruct (generate_output_fields it w (analysed it w)) as (_ & _ & -> & _).
    unfold analysed. rewrite provider_aliases_foldl_analyze, Hd, E.
    unfold get. destruct (scanned_fields w) as (_ & _ & -> & _).
    rewrite lookup_empty. cbn [default]. rewrite (right_id_L ∅ (∪)). done.
Qed.

(** X6. The dependency map a run leaves: the dependencies of a module are
    the names its own directory yields, explicit or implicit, other than
    its own name, and only scanned modules have any; the map has a key
    for a module exactly when that module has a dependency, so no entry
    is empty. *)
Theorem dependencies_after_run it (w : world) :
  let st := (run it w init).2 in
  let dir := path_of w (resolve w init) in
  (∀ m d, d ∈ get (dependencies st) m ↔
          m ∈ (scanned w).1 ∧ d ≠ m ∧
          (d ∈ extract_explicit_dependencies (dir m) ∨
           d ∈ extract_implicit_dependencies (dir m))) ∧
  (∀ m, m ∈ dom (dependencies st) ↔ get (dependencies st) m ≠ ∅) ∧
  (∀ m, m ∈ dom (dependencies st) → m ∈ (scanned w).1).
Proof.
  intros st dir. unfold st, dir. split; [|split].
  - intros m d. unfold get. rewrite dependencies_run.
    case_decide as H; cbn [default].
    + unfold found_deps. set_solver.
    + split; [set_solver|]. intros (Hm & Hne & Hd). destruct H. split; [done|].
      unfold found_deps. set_solver.
  - intros m. rewrite elem_of_dom. unfold get. rewrite dependencies_run.
    case_decide as H; cbn [default].
    + split; [by intros _; apply H|eauto].
    + split; [by intros [? ?]|done].
  - intros m. rewrite elem_of_dom, dependencies_run.
    case_decide as H; [by destruct H|by intros [? ?]].
Qed.

(** X7. The alias registry a run leaves: a module is recorded under an
    alias exactly when it was scanned and its directory declares the
    alias, and the registry has a key for an alias exactly when some
    module declares it, so every PROVIDER section of the report lists
    at least one module. *)
Theorem provider_aliases_after_run it (w : world) :
  let st := (run it w init).2 in
  let dir := path_of w (resolve w init) in
  (∀ alias m, m ∈ get (provider_aliases st) alias ↔
              m ∈ (scanned w).1 ∧ alias ∈ extract_provider_aliases (dir m)) ∧
  (∀ alias, alias ∈ dom (provider_aliases st) ↔
            get (provider_aliases st) alias ≠ ∅) ∧
  (∀ alias, alias ∈ dom (provider_aliases st) →
            sorted_set it (get (provider_aliases st) alias) ≠ []).
Proof.
  intros st dir. unfold st, dir.
  assert (∀ alias, alias ∈ dom (provider_aliases (run it w init).2) ↔
                   get (provider_aliases (run it w init).2) alias ≠ ∅) as Hdom.
  { intros a. rewrite elem_of_dom. unfold get. rewrite provider_aliases_run.
    case_decide as H; cbn [default]; [|by eauto].
    split; [by intros [? ?]|done]. }
  split; [|split; [done|]].
  - intros a m. unfold get. rewrite provider_aliases_run.
    pose proof (elem_of_declarers w (resolve w init) (scanned w).1 a m) as Hd.
    case_decide as H; cbn [default]; [|done].
    rewrite H in Hd. done.
  - intros a Ha%Hdom. by rewrite sorted_set_nil.
Qed.

(** X8. Calling [analyze_module] for the modules of a list gives the same
    state whatever the order of the list and however often a module
    stands in it: every call adds to sets, and adds the same. *)
Theorem analysis_order_irrelevant it it' (w : world) (st : state)
    (ms ms' : list string) :
  (∀ m, m ∈ ms ↔ m ∈ ms') →
  foldl (analyze_module it w) st ms = foldl (analyze_module it' w) st ms'.
Proof.
  intros H. apply state_eq.
  - destruct (foldl_analyze_module_fields it w ms st) as (-> & _).
    by destruct (foldl_analyze_module_fields it' w ms' st) as (-> & _).
  - apply map_eq. intros k. rewrite !dependencies_foldl_analyze.
    repeat case_decide; try done; naive_solver.
  - apply map_eq. intros a. rewrite !provider_aliases_foldl_analyze.
    assert (declarers w st ms a = declarers w st ms' a) as ->; [|done].
    apply set_eq. intros m. rewrite !elem_of_declarers. naive_solver.
  - destruct (foldl_analyze_module_fields it w ms st) as (_ & -> & _).
    by destruct (foldl_analyze_module_fields it' w ms' st) as (_ & -> & _).
  - destruct (foldl_analyze_module_fields it w ms st) as (_ & _ & -> & _).
    by destruct (foldl_analyze_module_fields it' w ms' st) as (_ & _ & -> & _).
  - destruct (foldl_analyze_module_fields it w ms st) as (_ & _ & _ & ->).
    by destruct (foldl_analyze_module_fields it' w ms' st) as (_ & _ & _ & ->).
Qed.

Lemma analysis_order_irrelevant_witness :
  (∀ m : string, m ∈ ["a"; "b"]%string ↔ m ∈ ["b"; "a"; "b"]%string) ∧
  foldl (analyze_module in_elements_order (world_of scenario_root true))
        (scanned (world_of scenario_root true)).2 ["a"; "b"]%string =
  foldl (analyze_module in_reverse_order (world_of scenario_root true))
        (scanned (world_of scenario_root true)).2 ["b"; "a"; "b"]%string.
Proof.
  assert (∀ m : string, m ∈ ["a"; "b"]%string ↔ m ∈ ["b"; "a"; "b"]%string) as H
    by set_solver.
  split; [exact H|].
  exact (analysis_order_irrelevant in_elements_order in_reverse_order
           (world_of scenario_root true) _ _ _ H).
Defined.

End aggregated.

(** ** What comment stripping keeps *)

Section stripping.
Import Str Re Fs TFDeps Spec Examples.

(** [re.sub] with an empty replacement only deletes. *)
Lemma sub_from_sublist (p : pattern) (s : string) (k : nat) :
  list_ascii_of_string (sub_from p k s) `sublist_of` list_ascii_of_string s.
Proof.
  revert k. induction s as [|c s IH]; intros k; [done|].
  cbn [sub_from list_ascii_of_string]. destruct k as [|k].
  - destruct (p (String c s)) as [[g t]|].
    + apply sublist_cons, IH.
    + cbn [list_ascii_of_string]. apply sublist_skip, IH.
  - apply sublist_cons, IH.
Qed.

Lemma length_list_ascii (s : string) :
  length (list_ascii_of_string s) = String.length s.
Proof. induction s as [|c s IH]; [done|]. simpl. by rewrite IH. Qed.

(** X9. [remove_comments] only deletes: the characters it returns are
    characters of its argument, in the same order, so the result is never
    longer than the argument. *)
Theorem remove_comments_only_deletes (content : string) :
  list_ascii_of_string (remove_comments content)
    `sublist_of` list_ascii_of_string content ∧
  String.length (remove_comments content) ≤ String.length content.
Proof.
  assert (list_ascii_of_string (remove_comments content)
            `sublist_of` list_ascii_of_string content) as H.
  { unfold remove_comments, sub.
    etrans; [apply sub_from_sublist|]. etrans; apply sub_from_sublist. }
  split; [done|]. rewrite <-!length_list_ascii. by apply sublist_length.
Qed.

Lemma sub_line_comment_absent (m s : string) :
  m ≠ EmptyString → ¬ occurs m s → sub (line_comment m) s = s.
Proof.
  intros Hm. induction s as [|c s IH]; intros H; [done|].
  rewrite sub_no_match.
  - f_equal. apply IH. intros Ho. by apply H, occurs_cons.
  - unfold line_comment.
    destruct (lit m (String c s)) as [t|] eqn:E; [|done].
    destruct H. apply lit_iff in E. exists EmptyString, t. by rewrite append_nil_l.
Qed.

(** X10. A text in which none of [/*], [//] and [#] occurs is returned
    as it is, so every module block, data block and alias of such a text
    is seen by the extractors. *)
Theorem remove_comments_without_markers (content : string) :
  ¬ occurs "/*" content → ¬ occurs "//" content → ¬ occurs "#" content →
  remove_comments content = content ∧
  explicit_of_text content = findall module_block content ∧
  data_blocks content = findall data_block content ∧
  aliases_of_text content = findall alias_assignment content.
Proof.
  intros H1 H2 H3.
  assert (remove_comments content = content) as H.
  { unfold remove_comments. rewrite sub_block_code_only by done.
    rewrite (sub_line_comment_absent "//" content) by done.
    by rewrite (sub_line_comment_absent "#" content). }
  unfold explicit_of_text, data_blocks, aliases_of_text. by rewrite H.
Qed.

Lemma remove_comments_without_markers_witness :
  ¬ occurs "/*" a_main_tf ∧ remove_comments a_main_tf = a_main_tf.
Proof.
  assert (¬ occurs "/*" a_main_tf) as H1 by (apply contains_false; by vm_compute).
  assert (¬ occurs "//" a_main_tf) as H2 by (apply contains_false; by vm_compute).
  assert (¬ occurs "#" a_main_tf) as H3 by (apply contains_false; by vm_compute).
  split; [exact H1|].
  exact (proj1 (remove_comments_without_markers a_main_tf H1 H2 H3)).
Defined.

(** Whether a marker occurs in a text of several lines is decided line by
    line. *)
Lemma contains_line_break (m l rest : string) :
  m ≠ EmptyString → one_line m = true → one_line l = true →
  contains m (l +:+ String newline rest) = contains m l || contains m rest.
Proof.
  intros Hm Hm1. induction l as [|c l IH]; intros Hl.
  - rewrite append_nil_l. cbn [contains].
    destruct m as [|a m]; [done|]. apply one_line_cons in Hm1 as [Ha _].
    cbn [startswith]. by destruct (Ascii.eqb_spec a newline).
  - apply one_line_cons in Hl as [Hc Hl]. rewrite append_cons. cbn [contains].
    rewrite IH by done. rewrite orb_assoc. f_equal. f_equal.
    rewrite <-append_cons.
    apply (first_line_startswith m _ (String c l) (lines rest)); [done|].
    rewrite <-(append_nil_r (String c l)) at 2.
    apply lines_app_prefix; [by apply one_line_cons|]. apply lines_newline.
Qed.

Lemma occurs_unlines (m : string) (ls : list string) :
  m ≠ EmptyString → one_line m = true →
  Forall (λ l, one_line l = true) ls →
  occurs m (unlines ls) → ∃ l, l ∈ ls ∧ occurs m l.
Proof.
  intros Hm Hm1. induction ls as [|l ls IH]; intros Hls Ho.
  - destruct Ho as (a & b & E). symmetry in E.
    apply append_eq_nil in E as [_ E]. by apply append_eq_nil in E as [? _].
  - apply Forall_cons in Hls as [Hl Hls]. destruct ls as [|l' ls'].
    + exists l. split; [left|done].
    + rewrite unlines_cons in Ho by done.
      apply contains_iff in Ho. rewrite contains_line_break in Ho by done.
      apply orb_true_iff in Ho as [Ho|Ho]; apply contains_iff in Ho.
      * exists l. split; [left|done].
      * destruct (IH Hls Ho) as (x & Hx & Hox). exists x. split; [by right|done].
Qed.

(** X11. The text [remove_comments] returns holds neither [//] nor [#]:
    whatever the extractors find, they find in text free of line-comment
    markers. *)
Theorem remove_comments_leaves_no_line_marker (content : string) :
  ¬ occurs "//" (remove_comments content) ∧
  ¬ occurs "#" (remove_comments content).
Proof.
  rewrite remove_comments_passes. unfold strip_line_comments.
  assert (Forall (λ l, one_line l = true)
            (map cut_line (lines (sub block_comment content)))) as Hone.
  { apply Forall_fmap. eapply Forall_impl; [apply Forall_one_line_lines|].
    intros l Hl. cbn. rewrite <-split_head_twice.
    by do 2 apply one_line_split_head. }
  split; intros Ho; apply occurs_unlines in Ho as (l & Hl & Ho); try done.
  all: apply list_elem_of_fmap in Hl as (l0 & -> & _).
  all: by destruct (cut_line_first_marker l0) as (_ & ? & ?).
Qed.

End stripping.

(** ** Finding the modules directory *)

Section modules_dir_key.
Import Str Re Fs TFDeps Spec Examples.






Lemma search_found (p : pattern) (a u : string) :
  is_Some (p u) → is_Some (search p (a +:+ u)).
Proof.
  intros [[g t] H]. induction a as [|c a IH].
  - rewrite append_nil_l. destruct u; cbn [search]; rewrite H; eauto.
  - rewrite append_cons. cbn [search].
    destruct (p (String c (a +:+ u))) as [[g' t']|]; eauto.
Qed.

Lemma greedy_then_found {A} (p : string → option A) (b u : string) :
  is_Some (p u) → is_Some (greedy_then p (b +:+ u)).
Proof.
  intros H. induction b as [|c b IH].
  - rewrite append_nil_l. destruct u as [|c u]; cbn [greedy_then]; [done|].
    by destruct (greedy_then p u).
  - rewrite append_cons. cbn [greedy_then].
    by destruct IH as [r ->].
Qed.

Lemma lazy_until_found (x c t : string) :
  is_Some (lazy_until x (c +:+ x +:+ t)).
Proof.
  induction c as [|a c IH].
  - rewrite append_nil_l.
    assert (lit x (x +:+ t) = Some t) as H by (by apply lit_iff).
    destruct (x +:+ t); cbn [lazy_until]; rewrite H; eauto.
  - rewrite append_cons. cbn [lazy_until].
    by destruct (lit x (String a (c +:+ x +:+ t))).
Qed.

Lemma star_all (cls : ascii → bool) (ws rest : string) :
  all_chars cls ws = true →
  (∀ a r, rest = String a r → cls a = false) →
  star cls (ws +:+ rest) = (ws, rest).
Proof.
  intros Hws Hr. induction ws as [|a ws IH].
  - rewrite append_nil_l. destruct rest as [|a r]; [done|].
    cbn [star]. by rewrite (Hr a r).
  - cbn [all_chars] in Hws. apply andb_true_iff in Hws as [Ha Hws].
    rewrite append_cons. cbn [star]. by rewrite Ha, IH.
Qed.

(** The run of characters of a path stops before the closing [*/]. *)
Lemma star_before_close (y e : string) :
  ∃ c, (star not_space_star (y +:+ "*/" +:+ e)).2 = c +:+ "*/" +:+ e.
Proof.
  induction y as [|a y [c IH]].
  - by exists EmptyString.
  - rewrite append_cons. cbn [star]. destruct (not_space_star a).
    + destruct (star not_space_star (y +:+ "*/" +:+ e)) as [r t].
      by exists c.
    + by exists (String a y).
Qed.

(** X13. [extract_modules_dir] finds a path in every readable HCL file
    that holds, after a [/*], the key [modules_dir:] followed by optional
    white space and a character that is neither white space nor an
    asterisk, and a [*/] further on. *)
Theorem modules_dir_found (w : world) (st : state)
    (content a b ws y e : string) (x : ascii) :
  hcl_file w = Some content →
  content = a +:+ "/*" +:+ b +:+ "modules_dir:" +:+ ws +:+ String x y
              +:+ "*/" +:+ e →
  all_chars is_space ws = true → not_space_star x = true →
  ∃ d, extract_modules_dir w st = (Some d, st).
Proof.
  intros Hf -> Hws Hx. unfold extract_modules_dir. rewrite Hf.
  assert (is_Some (search modules_dir_comment
            (a +:+ "/*" +:+ b +:+ "modules_dir:" +:+ ws +:+ String x y
               +:+ "*/" +:+ e))) as [d ->]; [|by exists d].
  apply search_found. unfold modules_dir_comment.
  rewrite (proj2 (lit_iff "/*" _ _) eq_refl). cbn [mbind option_bind].
  apply greedy_then_found.
  rewrite (proj2 (lit_iff "modules_dir:" _ _) eq_refl). cbn [mbind option_bind].
  rewrite star_all; [|done|].
  2: { intros a' r [= <- _]. unfold not_space_star in Hx.
       apply andb_true_iff in Hx as [Hx _]. by apply negb_true_iff in Hx. }
  cbn [snd]. unfold plus. rewrite append_cons. cbn [star]. rewrite Hx.
  destruct (star_before_close y e) as [c Hc].
  destruct (star not_space_star (y +:+ "*/" +:+ e)) as [r t]. cbn [snd] in Hc.
  subst t. cbn [mbind option_bind].
  by destruct (lazy_until_found "*/" c e) as [t ->].
Qed.

Lemma modules_dir_found_witness :
  ∃ d, extract_modules_dir (world_of scenario_root true) init = (Some d, init).
Proof.
  exact (modules_dir_found (world_of scenario_root true) init
           "/* modules_dir: modules */" "" " " " " "odules " "" "m"
           eq_refl eq_refl eq_refl eq_refl).
Defined.

End modules_dir_key.


(** ** More on inference, messages and the written report *)

Section further.
Import Str Re Fs TFDeps Spec Examples.

Lemma occurs_append_r (sub a r : string) : occurs sub a → occurs sub (a +:+ r).
Proof.
  intros (x & y & ->). exists x, (y +:+ r). by rewrite !append_assoc.
Qed.

(** X14. A name the inference produces is a fixed point of the inference:
    taken as the local name of a data block it yields itself. *)
Theorem inferred_name_infers_itself (name m : string) :
  infer_module_name name = Some m → infer_module_name m = Some m.
Proof.
  intros H. apply infer_module_name_iff in H. apply infer_module_name_iff.
  inversion H as [| |prefix Hi Ho Hb Hp| | | |]; subst;
    try (by apply infer_module_name_iff).
  destruct Hb as [[r Hr] Hmin].
  apply vpc_prefix; [| | |done].
  - intros Hx. apply Hi. rewrite Hr, <-!append_assoc. by apply occurs_append_r.
  - intros Hx. apply Ho. rewrite Hr, <-!append_assoc. by apply occurs_append_r.
  - split; [exists EmptyString; by rewrite append_nil_r|].
    intros a b E. apply (Hmin a (b +:+ r)).
    by rewrite Hr, <-!append_assoc, E, !append_assoc.
Qed.

Lemma inferred_name_infers_itself_witness :
  infer_module_name "foo_vpc_lookup" = Some "foo_vpc"%string ∧
  infer_module_name "foo_vpc" = Some "foo_vpc"%string.
Proof.
  assert (infer_module_name "foo_vpc_lookup" = Some "foo_vpc"%string) as H
    by reflexivity.
  split; [exact H|].
  exact (inferred_name_infers_itself "foo_vpc_lookup" "foo_vpc" H).
Defined.



Lemma one_line_append (a b : string) :
  one_line (a +:+ b) = one_line a && one_line b.
Proof.
  induction a as [|c a IH]; [done|]. rewrite append_cons. cbn [one_line].
  by rewrite IH, andb_assoc.
Qed.

Lemma one_line_join (sep : string) (l : list string) :
  one_line sep = true → Forall (λ x, one_line x = true) l →
  one_line (Str.join sep l) = true.
Proof.
  intros Hs. induction l as [|x l IH]; [done|]. intros [Hx Hl]%Forall_cons.
  unfold Str.join in *. cbn [String.concat]. destruct l as [|y l]; [done|].
  change (one_line (x +:+ sep +:+ String.concat sep (y :: l)) = true).
  rewrite !one_line_append, Hx, Hs. by apply IH.
Qed.

(** X16. Splitting the text [generate_output] writes at its newlines
    gives back the lines it was joined from, provided no module name, no
    dependency name of a module and no alias holds a newline. *)
Theorem report_lines_round_trip it (st : state) :
  (∀ m, m ∈ all_modules st → one_line m = true) →
  (∀ m d, d ∈ get (dependencies st) m → one_line d = true) →
  (∀ alias, alias ∈ dom (provider_aliases st) → one_line alias = true) →
  (∀ alias m, m ∈ get (provider_aliases st) alias → one_line m = true) →
  lines (Str.join nl (output_lines it st)) = output_lines it st.
Proof.
  intros Hm Hd Ha Ham. apply lines_unlines.
  { rewrite output_lines_report. done. }
  rewrite output_lines_report. unfold report.
  repeat (apply Forall_app; split); repeat (apply Forall_cons; split);
    try done; try apply Forall_nil.
  - apply Forall_fmap, Forall_forall. intros m Hin%elem_of_sorted_set. cbn.
    unfold report_module_line. case_decide.
    + rewrite one_line_append. by rewrite (Hm m Hin).
    + rewrite !one_line_append, (Hm m Hin), one_line_join; [done..|].
      apply Forall_forall. intros d Hdin%elem_of_sorted_set. by eapply Hd.
  - apply Forall_concat, Forall_fmap, Forall_forall.
    intros alias Hin%elem_of_sorted_set. cbn. unfold provider_section.
    repeat (apply Forall_cons; split); [done| |].
    + rewrite !one_line_append. by rewrite (Ha alias Hin).
    + apply Forall_fmap, Forall_forall. intros m Hmin%elem_of_sorted_set. cbn.
      rewrite one_line_append. by rewrite (Ham alias m Hmin).
Qed.

Lemma report_lines_round_trip_witness :
  let st := State None {["a"%string := {["b"%string]}]} ∅
                  {["a"%string; "b"%string]} [] None in
  lines (Str.join nl (output_lines in_elements_order st)) =
  ["/*"; "MODULES:"; "- a (depends_on: b)"; "- b"; "*/"]%string.
Proof.
  intros st.
  assert (output_lines in_elements_order st =
          ["/*"; "MODULES:"; "- a (depends_on: b)"; "- b"; "*/"]%string) as E
    by (by vm_compute).
  rewrite <-E.
  apply (report_lines_round_trip in_elements_order st).
  - intros m [->%elem_of_singleton| ->%elem_of_singleton]%elem_of_union; done.
  - intros m d. unfold get, st. cbn [dependencies].
    destruct (decide (m = "a"%string)) as [->|Hne].
    + rewrite lookup_singleton_eq. cbn. by intros ->%elem_of_singleton.
    + rewrite lookup_singleton_ne by done. cbn. set_solver.
  - intros alias. unfold st. cbn [provider_aliases]. set_solver.
  - intros alias m. unfold get, st. cbn [provider_aliases].
    rewrite lookup_empty. cbn. set_solver.
Defined.


End further.
